(** * Control-flow flattening (lib/Transforms/Obfuscate/Flattening.cpp)

    A shallow embedding of [Flattening::flatten] over a small model of the
    host intermediate representation, and the properties of the pass that
    the specification states.

    Layout of the development:
    - [IR]: procedures, basic blocks, instructions and terminators, with the
      handful of host operations the pass calls;
    - [Sem]: an executable semantics of the instruction fragment that the
      pass emits (32-bit arithmetic, one memory, a fuelled block runner);
    - the pass itself, stage by stage, parameterised by the random
      generator and by the stack-repair collaborator;
    - sample procedures;
    - the lemmas on each stage, and the theorems on the pass. *)

From Stdlib Require Import ZArith List Bool Arith Lia Permutation.
Import ListNotations.

(* ------------------------------------------------------------------------- *)
(** ** The intermediate representation *)
(* ------------------------------------------------------------------------- *)

Module IR.

(** Values are identified by the instruction that defines them.  The values
    of the procedure under transformation are [OrigReg n]; the remaining
    constructors name the instruction objects that the pass allocates, after
    the C++ variables that hold them.  The per-block ones carry the identity
    of the block they are inserted in. *)
Inductive reg : Type :=
| OrigReg (n : nat)
| switchVar
| load
| cond (i : nat)
| tempValFalse (i : nat)
| maskVal (i : nat)
| finalVal (i : nat).

Inductive value : Type :=
| ConstI32 (z : Z)          (* ConstantInt::get(i32, z) *)
| ConstI1 (b : bool)        (* ConstantInt::get(i1, b)  *)
| Reg (r : reg).

Inductive binop : Type := Xor | And | Add | Sub.

(** Non-terminator instructions.  [OtherInst] stands for every instruction
    the pass neither creates nor inspects (calls, casts, ...).  There are no
    phi nodes: the pass does not look at them, and making them and every
    other value that crosses a block valid again is the job of the repair
    step it calls last. *)
Inductive instr : Type :=
| AllocaInst (dst : reg)
| LoadInst (dst : reg) (ptr : value)
| StoreInst (val ptr : value)
| SExtInst (dst : reg) (v : value)
| BinaryOperator (op : binop) (dst : reg) (a b : value)
| ICmpEq (dst : reg) (a b : value)
| OtherInst (dst : option reg) (operands : list value).

(** Terminators, with block identities as targets. *)
Inductive terminator : Type :=
| Ret (v : option value)
| Br (target : nat)
| CondBr (c : value) (ifTrue ifFalse : nat)
| Switch (v : value) (defaultDest : nat) (cases : list (Z * nat))
| IndirectBr (addr : value) (dests : list nat)
| Invoke (normalDest unwindDest : nat)
| Unreachable.

(** A basic block: its identity (the [BasicBlock *] of the source), its
    instructions and the terminator that ends it. *)
Record BasicBlock : Type := mkBB {
  bbId : nat;
  bbInsts : list instr;
  bbTerm : terminator
}.

(** A procedure is the list of its blocks in layout order; the first one is
    the entry block. *)
Definition Function : Type := list BasicBlock.

Definition successors (t : terminator) : list nat :=
  match t with
  | Ret _ => []
  | Br target => [target]
  | CondBr _ ifTrue ifFalse => [ifTrue; ifFalse]
  | Switch _ d cases => d :: map snd cases
  | IndirectBr _ dests => dests
  | Invoke n u => [n; u]
  | Unreachable => []
  end.

Definition getNumSuccessors (t : terminator) : nat := length (successors t).

(** [getSuccessor t k]; every call of the pass is guarded by a test on
    [getNumSuccessors], so the default is never returned. *)
Definition getSuccessor (t : terminator) (k : nat) : nat := nth k (successors t) 0.

Definition isa_InvokeInst (t : terminator) : bool :=
  match t with Invoke _ _ => true | _ => false end.

Definition isa_BranchInst (t : terminator) : bool :=
  match t with Br _ | CondBr _ _ _ => true | _ => false end.

Definition isConditional (t : terminator) : bool :=
  match t with CondBr _ _ _ => true | _ => false end.

(** [BasicBlock::size()]: the terminator counts as an instruction. *)
Definition size (b : BasicBlock) : nat := length (bbInsts b) + 1.

Definition ids (f : Function) : list nat := map bbId f.

(** A block identity that no block of [f] has ([BasicBlock::Create] returns
    a new object). *)
Definition fresh (f : Function) : nat := S (list_max (ids f)).

Definition getBlock (f : Function) (i : nat) : option BasicBlock :=
  find (fun b => bbId b =? i) f.

(** In-place update of the block [i]. *)
Definition updateBlock (i : nat) (upd : BasicBlock -> BasicBlock) (f : Function) : Function :=
  map (fun b => if bbId b =? i then upd b else b) f.

Definition removeBlock (i : nat) (f : Function) : Function :=
  filter (fun b => negb (bbId b =? i)) f.

(** Insertion of [blk] in the layout just before the block [pos] (at the end
    when there is no such block). *)
Fixpoint insertBefore (pos : nat) (blk : BasicBlock) (f : Function) : Function :=
  match f with
  | [] => [blk]
  | b :: rest =>
      if bbId b =? pos then blk :: b :: rest
      else b :: insertBefore pos blk rest
  end.

(** [i->moveBefore(pos)]. *)
Definition moveBefore (i pos : nat) (f : Function) : Function :=
  match getBlock f i with
  | Some blk => insertBefore pos blk (removeBlock i f)
  | None => f
  end.

(** [this->splitBasicBlock(I, name)]: the instructions from position [I] on
    (the terminator is at position [length (bbInsts this)]) move to the new
    block [New], which is linked in right after [this]; [this] is closed by a
    branch to [New]. *)
Fixpoint splitBasicBlock (this I New : nat) (f : Function) : Function :=
  match f with
  | [] => []
  | b :: rest =>
      if bbId b =? this
      then mkBB (bbId b) (firstn I (bbInsts b)) (Br New)
             :: mkBB New (skipn I (bbInsts b)) (bbTerm b)
             :: rest
      else b :: splitBasicBlock this I New rest
  end.

(** [switchI->addCase(numCase, dest)], on the switch that ends block [sw]. *)
Definition addCase (sw : nat) (numCase : Z) (dest : nat) (f : Function) : Function :=
  updateBlock sw
    (fun b => match bbTerm b with
              | Switch v d cases =>
                  mkBB (bbId b) (bbInsts b) (Switch v d (cases ++ [(numCase, dest)]))
              | _ => b
              end) f.

End IR.

Import IR.

(* ------------------------------------------------------------------------- *)
(** ** Semantics of the emitted fragment *)
(* ------------------------------------------------------------------------- *)

Module Sem.

Definition reg_eq_dec (r r' : reg) : {r = r'} + {r <> r'}.
Proof. decide equality; apply Nat.eq_dec. Defined.

(** 32-bit integers are the integers of [0, 2^32); an [i1] is 0 or 1. *)
Definition wrap32 (z : Z) : Z := (z mod 2 ^ 32)%Z.

Definition UINT32_MAX : Z := (2 ^ 32 - 1)%Z.

(** [sext i1 x to i32]: all ones when the bit is set, zero otherwise. *)
Definition sext (x : Z) : Z := if Z.testbit x 0 then UINT32_MAX else 0%Z.

Definition evalBinop (op : binop) (a b : Z) : Z :=
  match op with
  | Xor => Z.lxor a b
  | And => Z.land a b
  | Add => wrap32 (a + b)
  | Sub => wrap32 (a - b)
  end.

(** Registers, and one memory of 32-bit cells addressed by position. *)
Record state : Type := mkState {
  regs : reg -> option Z;
  mem : list Z
}.

Definition setReg (r : reg) (x : Z) (s : state) : state :=
  mkState (fun r' => if reg_eq_dec r' r then Some x else regs s r') (mem s).

Definition evalValue (s : state) (v : value) : option Z :=
  match v with
  | ConstI32 z => Some (wrap32 z)
  | ConstI1 b => Some (if b then 1 else 0)%Z
  | Reg r => regs s r
  end.

Fixpoint setCell (a : nat) (x : Z) (m : list Z) : option (list Z) :=
  match m, a with
  | [], _ => None
  | _ :: rest, O => Some (x :: rest)
  | y :: rest, S a' => option_map (cons y) (setCell a' x rest)
  end.

Definition execInstr (s : state) (i : instr) : option state :=
  match i with
  | AllocaInst dst =>
      Some (mkState (regs (setReg dst (Z.of_nat (length (mem s))) s)) (mem s ++ [0%Z]))
  | LoadInst dst ptr =>
      match evalValue s ptr with
      | Some a =>
          match nth_error (mem s) (Z.to_nat a) with
          | Some x => Some (setReg dst x s)
          | None => None
          end
      | None => None
      end
  | StoreInst val ptr =>
      match evalValue s val, evalValue s ptr with
      | Some x, Some a =>
          match setCell (Z.to_nat a) x (mem s) with
          | Some m => Some (mkState (regs s) m)
          | None => None
          end
      | _, _ => None
      end
  | SExtInst dst v =>
      match evalValue s v with
      | Some x => Some (setReg dst (sext x) s)
      | None => None
      end
  | BinaryOperator op dst a b =>
      match evalValue s a, evalValue s b with
      | Some x, Some y => Some (setReg dst (evalBinop op x y) s)
      | _, _ => None
      end
  | ICmpEq dst a b =>
      match evalValue s a, evalValue s b with
      | Some x, Some y => Some (setReg dst (if Z.eqb x y then 1 else 0)%Z s)
      | _, _ => None
      end
  | OtherInst _ _ => None     (* outside the fragment *)
  end.

Fixpoint execInsts (s : state) (l : list instr) : option state :=
  match l with
  | [] => Some s
  | i :: rest =>
      match execInstr s i with
      | Some s' => execInsts s' rest
      | None => None
      end
  end.

(** The destination of a switch on [x]: the first case whose key is [x],
    the default destination when there is none. *)
Fixpoint switchDest (x : Z) (cases : list (Z * nat)) (d : nat) : nat :=
  match cases with
  | [] => d
  | (k, dest) :: rest => if Z.eqb k x then dest else switchDest x rest d
  end.

Inductive outcome : Type :=
| Returned (v : option Z)
| Stuck
| OutOfFuel.

(** Where control goes after the terminator [t], or the value returned. *)
Definition execTerm (s : state) (t : terminator) : option (nat + option Z) :=
  match t with
  | Ret None => Some (inr None)
  | Ret (Some v) =>
      match evalValue s v with
      | Some x => Some (inr (Some x))
      | None => None
      end
  | Br target => Some (inl target)
  | CondBr c ifTrue ifFalse =>
      match evalValue s c with
      | Some x => Some (inl (if Z.testbit x 0 then ifTrue else ifFalse))
      | None => None
      end
  | Switch v d cases =>
      match evalValue s v with
      | Some x => Some (inl (switchDest x cases d))
      | None => None
      end
  | IndirectBr _ _ | Invoke _ _ | Unreachable => None
  end.

(** Execution from the start of block [pc], for at most [fuel] blocks. *)
Fixpoint run (fuel : nat) (f : Function) (s : state) (pc : nat) : outcome :=
  match fuel with
  | O => OutOfFuel
  | S fuel' =>
      match getBlock f pc with
      | None => Stuck
      | Some b =>
          match execInsts s (bbInsts b) with
          | None => Stuck
          | Some s' =>
              match execTerm s' (bbTerm b) with
              | None => Stuck
              | Some (inr v) => Returned v
              | Some (inl next) => run fuel' f s' next
              end
          end
      end
  end.

(** A call of the procedure: the arguments are the values [OrigReg 0],
    [OrigReg 1], ...; execution starts at the first block of the layout. *)
Definition initial (args : list Z) : state :=
  mkState (fun r => match r with OrigReg n => nth_error args n | _ => None end) [].

Definition call (fuel : nat) (f : Function) (args : list Z) : outcome :=
  match f with
  | [] => Stuck
  | entry :: _ => run fuel f (initial args) (bbId entry)
  end.

End Sem.

(* ------------------------------------------------------------------------- *)
(** ** The pass *)
(* ------------------------------------------------------------------------- *)

(** The ways in which the C++ can stop without returning.  The first and
    the third are the checks of [assert] and [cast<>], which stop the pass
    in a build with assertions.  The second is no check of the source: a
    read past the end of a vector is undefined there, and the model stops
    on it, so that what is proved of a run that returns is proved of a run
    whose reads are all in range. *)
Inductive fault : Type :=
| AssertNumSuccessors     (* assert (getNumSuccessors() == 2), line 175 *)
| IndexOutOfRange         (* a read of bbIndex or origBB past the end *)
| BadCast                 (* cast<BranchInst> of another terminator *)
| DanglingBlock.          (* a block of origBB that the procedure lacks *)

Inductive result (A : Type) : Type :=
| Ok (a : A)
| Fail (e : fault).

Arguments Ok {A} a.
Arguments Fail {A} e.

Definition bind {A B : Type} (r : result A) (k : A -> result B) : result B :=
  match r with
  | Ok a => k a
  | Fail e => Fail e
  end.

Notation "x <- r ;; k" := (bind r (fun x => k))
  (at level 61, r at next level, right associativity).

(** [v[k]] on a [std::vector], for [k] in range (see [fault]). *)
Definition at_ {A : Type} (v : list A) (k : nat) : result A :=
  match nth_error v k with
  | Some x => Ok x
  | None => Fail IndexOutOfRange
  end.

(** [std::distance(l.begin(), std::find(l.begin(), l.end(), x))]: the
    position of the first [x], the length of [l] when there is none. *)
Fixpoint find_index (x : nat) (l : list nat) : nat :=
  match l with
  | [] => 0
  | y :: rest => if y =? x then 0 else S (find_index x rest)
  end.

(** The random generator, as the values it hands out: [next_u32 k] is the
    k-th number drawn through [randomBBIndex], [std_shuffle] what
    [std::shuffle] makes of a sequence: some rearrangement of it. *)
Record mt19937 : Type := mkGen {
  next_u32 : nat -> Z;
  std_shuffle : list nat -> list nat;
  std_shuffle_perm : forall l, Permutation (std_shuffle l) l
}.

Definition randomBBIndex (g : mt19937) (k : nat) : Z := Sem.wrap32 (next_u32 g k).

(** Lines 70-77: the blocks are saved unless one ends in an invoke. *)
Fixpoint saveOrigBB (f : Function) : option (list nat) :=
  match f with
  | [] => Some []
  | tmp :: rest =>
      if isa_InvokeInst (bbTerm tmp) then None
      else option_map (cons (bbId tmp)) (saveOrigBB rest)
  end.

(** The test of lines 92-98 on the terminator of the entry block. *)
Definition splitsEntry (t : terminator) : bool :=
  (isa_BranchInst t && isConditional t) || (1 <? getNumSuccessors t).

(** Lines 91-108: the entry block [insert] is split when it ends in a
    conditional branch or in a terminator with more than one successor.
    The iterator [i] is a position in the block, the terminator being the
    last one. *)
Definition splitEntry (f : Function) (origBB : list nat) : Function * list nat :=
  match f with
  | [] => (f, origBB)
  | insert :: _ =>
      if splitsEntry (bbTerm insert)
      then
        let i := size insert in
        let i := i - 1 in
        let i := if 1 <? size insert then i - 1 else i in
        let tmpBB := fresh f in
        (splitBasicBlock (bbId insert) i tmpBB f, tmpBB :: origBB)
      else (f, origBB)
  end.

(** Lines 110-113. *)
Definition drawLabels (g : mt19937) (origBB : list nat) : list Z :=
  map (randomBBIndex g) (seq 0 (length origBB)).

(** Lines 115-135: the entry loses its terminator and gets the state
    variable, its initial store and the jump to the new block [loopEntry];
    [loopEntry] loads the state variable and switches on it, with itself as
    default destination and no case yet. *)
Definition buildDispatch (insert : nat) (bbIndex : list Z) (f : Function)
  : result (Function * nat) :=
  first <- at_ bbIndex 0 ;;
  let loopEntry := fresh f in
  let f := updateBlock insert
             (fun b => mkBB (bbId b)
                         (bbInsts b ++ [AllocaInst switchVar;
                                        StoreInst (ConstI32 first) (Reg switchVar)])
                         (Br loopEntry)) f in
  let f := insertBefore insert
             (mkBB loopEntry [LoadInst load (Reg switchVar)]
                (Switch (Reg load) loopEntry [])) f in
  let f := moveBefore insert loopEntry f in
  Ok (f, loopEntry).

(** Lines 141-154. *)
Fixpoint installCases (loopEntry : nat) (origBB : list nat) (bbIndex : list Z)
    (bbSeq : list nat) (f : Function) : result Function :=
  match bbSeq with
  | [] => Ok f
  | b :: rest =>
      i <- at_ origBB b ;;
      let f := moveBefore i loopEntry f in
      numCase <- at_ bbIndex b ;;
      let f := addCase loopEntry numCase i f in
      installCases loopEntry origBB bbIndex rest f
  end.

(** Lines 169/176 and 181-186: the instructions that compute the next state
    of block [i], from the condition [c] and the labels of the block ([lb])
    and of its false ([lf]) and true ([lt]) successors. *)
Definition nextStateCode (i : nat) (c : value) (lb lf lt : Z) : list instr :=
  [SExtInst (cond i) c;
   BinaryOperator Xor (tempValFalse i) (ConstI32 (Z.lxor lb lf)) (Reg load);
   BinaryOperator And (maskVal i) (Reg (cond i)) (ConstI32 (Z.lxor lt lf));
   BinaryOperator Xor (finalVal i) (Reg (maskVal i)) (Reg (tempValFalse i))].

(** ... followed by the store of line 192 into the state variable
    ([load->getPointerOperand()] is [switchVar]). *)
Definition updateStateCode (i : nat) (c : value) (lb lf lt : Z) : list instr :=
  nextStateCode i c lb lf lt ++ [StoreInst (Reg (finalVal i)) (Reg switchVar)].

(** Lines 158-194, for the block [blk] that is [origBB[b]]. *)
Definition rewriteBlock (loopEntry : nat) (origBB : list nat) (bbIndex : list Z)
    (bbSeq : list nat) (b : nat) (blk : BasicBlock) : result BasicBlock :=
  let i := bbId blk in
  let t := bbTerm blk in
  if getNumSuccessors t =? 0 then Ok blk
  else
    sel <- (if getNumSuccessors t =? 1
            then Ok (ConstI1 false,
                     find_index (getSuccessor t 0) origBB,
                     find_index b bbSeq)
            else if negb (getNumSuccessors t =? 2) then Fail AssertNumSuccessors
            else match t with
                 | CondBr c _ _ =>
                     Ok (c,
                         find_index (getSuccessor t 1) origBB,
                         find_index (getSuccessor t 0) origBB)
                 | _ => Fail BadCast
                 end) ;;
    let '(c, succIndexFalse, succIndexTrue) := sel in
    lb <- at_ bbIndex b ;;
    lf <- at_ bbIndex succIndexFalse ;;
    lt <- at_ bbIndex succIndexTrue ;;
    Ok (mkBB i (bbInsts blk ++ updateStateCode i c lb lf lt) (Br loopEntry)).

(** Lines 156-195. *)
Fixpoint recalcSwitchVar (loopEntry : nat) (origBB : list nat) (bbIndex : list Z)
    (bbSeq : list nat) (todo : list nat) (f : Function) : result Function :=
  match todo with
  | [] => Ok f
  | b :: rest =>
      i <- at_ origBB b ;;
      match getBlock f i with
      | None => Fail DanglingBlock
      | Some blk =>
          blk' <- rewriteBlock loopEntry origBB bbIndex bbSeq b blk ;;
          recalcSwitchVar loopEntry origBB bbIndex bbSeq rest
            (updateBlock i (fun _ => blk') f)
      end
  end.

(** Lines 84-195: everything between the validation and the hand-off to
    the repair step, on a procedure that passed the validation. *)
Definition rewire (g : mt19937) (f : Function) : result Function :=
  match f with
  | [] => Ok f
  | insert :: _ =>
      let origBB := tl (ids f) in
      let '(f, origBB) := splitEntry f origBB in
      let bbIndex := drawLabels g origBB in
      d <- buildDispatch (bbId insert) bbIndex f ;;
      let '(f, loopEntry) := d in
      let bbSeq := std_shuffle g (seq 0 (length origBB)) in
      f <- installCases loopEntry origBB bbIndex bbSeq f ;;
      recalcSwitchVar loopEntry origBB bbIndex bbSeq bbSeq f
  end.

(** [Flattening::flatten].  [fixStack] is the repair step of Util.h, which
    the pass calls on the rewired procedure and whose code is not part of
    this file. *)
Definition flatten (fixStack : Function -> Function) (g : mt19937) (f : Function)
  : result (bool * Function) :=
  match saveOrigBB f with
  | None => Ok (false, f)
  | Some origBB =>
      if length origBB <=? 1 then Ok (false, f)
      else
        f' <- rewire g f ;;
        Ok (true, fixStack f')
  end.

(** The variables of [flatten] as functions of the procedure: the entry
    block [insert], the procedure and [origBB] after line 108, [bbIndex],
    [loopEntry] and [bbSeq]. *)
Definition insertOf (f : Function) : nat :=
  match f with
  | [] => 0
  | insert :: _ => bbId insert
  end.

Definition afterSplit (f : Function) : Function := fst (splitEntry f (tl (ids f))).

Definition origBBOf (f : Function) : list nat := snd (splitEntry f (tl (ids f))).

Definition bbIndexOf (g : mt19937) (f : Function) : list Z := drawLabels g (origBBOf f).

Definition loopEntryOf (f : Function) : nat := fresh (afterSplit f).

Definition bbSeqOf (g : mt19937) (f : Function) : list nat :=
  std_shuffle g (seq 0 (length (origBBOf f))).

(** The validation of lines 70-82 as one test. *)
Definition rejected (f : Function) : bool :=
  existsb (fun b => isa_InvokeInst (bbTerm b)) f || (length f <=? 1).

(** The label drawn for the dispatched block [i]. *)
Definition labelOf (g : mt19937) (f : Function) (i : nat) : Z :=
  nth (find_index i (origBBOf f)) (bbIndexOf g f) 0%Z.

(** The cases that lines 141-154 install, in order. *)
Definition casesOf (origBB : list nat) (bbIndex : list Z) (bbSeq : list nat)
  : list (Z * nat) :=
  map (fun b => (nth b bbIndex 0%Z, nth b origBB 0)) bbSeq.

(** The blocks that are dispatched, as they are after line 108. *)
Definition dispatchedBlocks (f : Function) : list BasicBlock := tl (afterSplit f).

(** Conditions on a block under which lines 157-186 go through: *)
Definition atMostTwoSuccessors (blk : BasicBlock) : bool :=
  getNumSuccessors (bbTerm blk) <=? 2.

Definition successorsIn (origBB : list nat) (blk : BasicBlock) : bool :=
  forallb (fun s => existsb (Nat.eqb s) origBB) (successors (bbTerm blk)).

Definition twoWayIsBranch (blk : BasicBlock) : bool :=
  if getNumSuccessors (bbTerm blk) =? 2 then isConditional (bbTerm blk) else true.

(** every dispatched block has at most two successors, all of them
    dispatched; *)
Definition inBounds (f : Function) : bool :=
  forallb (fun blk => atMostTwoSuccessors blk && successorsIn (origBBOf f) blk)
    (dispatchedBlocks f).

(** and moreover its terminator, when it has two successors, is a
    conditional branch. *)
Definition normalized (f : Function) : bool :=
  inBounds f && forallb twoWayIsBranch (dispatchedBlocks f).

(** 32-bit values. *)
Definition is_u32 (x : Z) : Prop := (0 <= x < 2 ^ 32)%Z.

(** The input contract of the pass: past the validation every terminator is
    a return, an unconditional branch or a conditional branch, and (as in
    every procedure of the host) its targets are blocks of the procedure
    other than the entry. *)
Definition contractForm (t : terminator) : bool :=
  match t with
  | Ret _ | Br _ | CondBr _ _ _ => true
  | _ => false
  end.

Definition inputContract (f : Function) : bool :=
  forallb (fun blk => contractForm (bbTerm blk) && successorsIn (ids (tl f)) blk) f.

(** The register that an instruction defines, and whether an instruction is
    the definition of a value. *)
Definition definedBy (i : instr) : option reg :=
  match i with
  | AllocaInst dst | LoadInst dst _ | SExtInst dst _
  | BinaryOperator _ dst _ _ | ICmpEq dst _ _ => Some dst
  | StoreInst _ _ => None
  | OtherInst dst _ => dst
  end.

Definition defines (i : instr) (v : value) : bool :=
  match v, definedBy i with
  | Reg r, Some r' => if Sem.reg_eq_dec r r' then true else false
  | _, _ => false
  end.

(* ------------------------------------------------------------------------- *)
(** ** Sample procedures and generators *)
(* ------------------------------------------------------------------------- *)

(** A generator that draws 10, 11, 12, ... and shuffles by reversing. *)
Definition gen_reversing : mt19937 :=
  mkGen (fun k => Z.of_nat (10 + k)) (@rev nat)
    (fun l => Permutation_sym (Permutation_rev l)).

(** [std::mt19937] as the C++ standard defines it (32-bit words, 624 of
    them, shift 397, the standard's masks and multiplier).  The library's
    code is not part of the repository; the standard fixes the algorithm,
    and with it the outputs of every seed. *)
Module MT.

Definition u32 (z : Z) : Z := (z mod 2 ^ 32)%Z.

(** The state that one 32-bit seed gives. *)
Fixpoint seedRest (k : nat) (prev i : Z) : list Z :=
  match k with
  | O => []
  | S k' =>
      let x := u32 (1812433253 * Z.lxor prev (Z.shiftr prev 30) + i) in
      x :: seedRest k' x (i + 1)%Z
  end.

Definition init (seed : Z) : list Z :=
  u32 seed :: seedRest 623 (u32 seed) 1%Z.

Fixpoint setNth (k : nat) (v : Z) (x : list Z) : list Z :=
  match x, k with
  | [], _ => []
  | _ :: rest, O => v :: rest
  | y :: rest, S k' => y :: setNth k' v rest
  end.

(** One word of the state transition, in place as the engine does it. *)
Definition twistAt (x : list Z) (k : nat) : list Z :=
  let y := Z.lor (Z.land (nth k x 0%Z) 2147483648)
                 (Z.land (nth ((k + 1) mod 624) x 0%Z) 2147483647) in
  setNth k
    (Z.lxor (Z.lxor (nth ((k + 397) mod 624) x 0%Z) (Z.shiftr y 1))
            (if Z.odd y then 2567483615%Z else 0%Z)) x.

Definition twist (x : list Z) : list Z := fold_left twistAt (seq 0 624) x.

Definition temper (y : Z) : Z :=
  let y := Z.lxor y (Z.shiftr y 11) in
  let y := Z.lxor y (Z.land (Z.shiftl y 7) 2636928640) in
  let y := Z.lxor y (Z.land (Z.shiftl y 15) 4022730752) in
  Z.lxor y (Z.shiftr y 18).

(** The k-th output (from 0) of the engine seeded with [seed]. *)
Definition draw (seed : Z) (k : nat) : Z :=
  temper (nth (k mod 624) (Nat.iter (S (k / 624)) twist (init seed)) 0%Z).

End MT.

(** A generator that draws what [std::mt19937 g(seed)] outputs (over the
    whole 32-bit range [randomBBIndex] hands the outputs on as they are)
    and leaves the order alone. *)
Definition gen_seeded (seed : Z) : mt19937 :=
  mkGen (MT.draw seed) (fun l => l) (@Permutation_refl nat).

(** Entry -> A; A: if cond then B else C; B -> D; C -> D; D: return x,
    where B and C write x (10 and 20) to a slot that the entry allocates
    and D reads it back; cond is the argument. *)
Definition diamond : Function :=
  [ mkBB 0 [AllocaInst (OrigReg 1)] (Br 1);
    mkBB 1 [] (CondBr (Reg (OrigReg 0)) 2 3);
    mkBB 2 [StoreInst (ConstI32 10) (Reg (OrigReg 1))] (Br 4);
    mkBB 3 [StoreInst (ConstI32 20) (Reg (OrigReg 1))] (Br 4);
    mkBB 4 [LoadInst (OrigReg 2) (Reg (OrigReg 1))] (Ret (Some (Reg (OrigReg 2)))) ].

(** An entry that compares, stores, and then branches on the comparison. *)
Definition branching_entry : Function :=
  [ mkBB 0 [ICmpEq (OrigReg 1) (Reg (OrigReg 0)) (ConstI32 0);
            StoreInst (ConstI32 1) (Reg (OrigReg 2))]
      (CondBr (Reg (OrigReg 1)) 1 2);
    mkBB 1 [] (Ret (Some (ConstI32 1)));
    mkBB 2 [] (Ret (Some (ConstI32 2))) ].

(** [goto L2; L1: return 1; L2: return 2;] *)
Definition jump_over : Function :=
  [ mkBB 0 [] (Br 2);
    mkBB 1 [] (Ret (Some (ConstI32 1)));
    mkBB 2 [] (Ret (Some (ConstI32 2))) ].

(** A computed goto with three destinations, after the entry ... *)
Definition three_way : Function :=
  [ mkBB 0 [] (Br 1);
    mkBB 1 [] (IndirectBr (Reg (OrigReg 0)) [2; 3; 4]);
    mkBB 2 [] (Ret (Some (ConstI32 2)));
    mkBB 3 [] (Ret (Some (ConstI32 3)));
    mkBB 4 [] (Ret (Some (ConstI32 4))) ].

(** ... and in the entry itself. *)
Definition three_way_entry : Function :=
  [ mkBB 0 [] (IndirectBr (Reg (OrigReg 0)) [1; 2; 3]);
    mkBB 1 [] (Ret (Some (ConstI32 1)));
    mkBB 2 [] (Ret (Some (ConstI32 2)));
    mkBB 3 [] (Ret (Some (ConstI32 3))) ].

(** A state in which the state variable lives at address 0 and holds [x],
    and [x] has been loaded. *)
Definition dispatching (x : Z) : Sem.state :=
  Sem.mkState (fun r => match r with
                        | load => Some x
                        | switchVar => Some 0%Z
                        | OrigReg 0 => Some 1%Z
                        | _ => None
                        end) [x].

(** [diamond], rewired with [gen_reversing]. *)
Definition diamond_flat : Function :=
  Eval vm_compute in
    match rewire gen_reversing diamond with
    | Ok f => f
    | Fail _ => []
    end.

(** [diamond], rewired with the draws of the seed 875734096. *)
Definition diamond_collided : Function :=
  Eval vm_compute in
    match rewire (gen_seeded 875734096) diamond with
    | Ok f => f
    | Fail _ => []
    end.

(* ------------------------------------------------------------------------- *)
(** ** The entry point of the pass, and execution block by block *)
(* ------------------------------------------------------------------------- *)

(** [Flattening::runOnFunction] (lines 53-56): the pass manager's entry
    point hands the procedure to [flatten] and returns its flag. *)
Definition runOnFunction (fixStack : Function -> Function) (g : mt19937)
    (F : Function) : result (bool * Function) :=
  let tmp := F in
  flatten fixStack g tmp.

(** Execution of the block [pc]: the state at its end, and where control
    goes (or the value returned). *)
Definition execBlock (f : Function) (s : Sem.state) (pc : nat)
  : option (Sem.state * (nat + option Z)) :=
  match getBlock f pc with
  | None => None
  | Some b =>
      match Sem.execInsts s (bbInsts b) with
      | None => None
      | Some s' =>
          match Sem.execTerm s' (bbTerm b) with
          | None => None
          | Some o => Some (s', o)
          end
      end
  end.

(** The position [b] of [origBB] as a block, and the test that an identity
    is none of those of a list. *)
Definition blockAt (origBB : list nat) (b : nat) : nat := nth b origBB 0.

Definition notAmong (l : list nat) (x : nat) : bool := negb (existsb (Nat.eqb x) l).

(* ------------------------------------------------------------------------- *)
(** ** Blocks by identity *)
(* ------------------------------------------------------------------------- *)

Section BlockMap.

Ltac break_eqb :=
  repeat match goal with
         | |- context [?a =? ?b] => destruct (Nat.eqb_spec a b)
         end;
  subst; simpl; try congruence; try reflexivity.

Lemma getBlock_id (f : Function) (i : nat) (b : BasicBlock) :
  getBlock f i = Some b -> bbId b = i.
Proof.
  unfold getBlock. intros H. apply find_some in H. destruct H as [_ H].
  now apply Nat.eqb_eq in H.
Qed.

Lemma getBlock_In (f : Function) (i : nat) :
  In i (ids f) <-> getBlock f i <> None.
Proof.
  unfold getBlock, ids. induction f as [|b f IH]; simpl.
  - split; [tauto | intros H; now elim H].
  - destruct (Nat.eqb_spec (bbId b) i) as [E|E].
    + split; [intros _; discriminate | auto].
    + rewrite <- IH. split; [intros [H|H]; [contradiction | exact H] | auto].
Qed.

Lemma getBlock_None (f : Function) (i : nat) :
  ~ In i (ids f) <-> getBlock f i = None.
Proof.
  rewrite getBlock_In. destruct (getBlock f i); split; intros H;
    try congruence; try (exfalso; apply H; discriminate).
Qed.

Lemma getBlock_head (b : BasicBlock) (f : Function) :
  getBlock (b :: f) (bbId b) = Some b.
Proof. unfold getBlock. simpl. now rewrite Nat.eqb_refl. Qed.

Lemma getBlock_tail (b : BasicBlock) (f : Function) (i : nat) :
  i <> bbId b -> getBlock (b :: f) i = getBlock f i.
Proof.
  intros H. unfold getBlock. simpl.
  destruct (Nat.eqb_spec (bbId b) i); [congruence | reflexivity].
Qed.

Lemma getBlock_nth (f : Function) (k : nat) (b : BasicBlock) :
  NoDup (ids f) -> nth_error f k = Some b -> getBlock f (bbId b) = Some b.
Proof.
  revert k. induction f as [|x f IH]; intros k Hnd Hk.
  - now destruct k.
  - simpl in Hnd. inversion Hnd as [|? ? Hx Hnd']; subst.
    destruct k as [|k]; simpl in Hk.
    + inversion Hk. apply getBlock_head.
    + rewrite getBlock_tail; [now apply (IH k)|].
      intros E. apply Hx. rewrite <- E. apply in_map. eapply nth_error_In, Hk.
Qed.

Lemma fresh_above (f : Function) (i : nat) : In i (ids f) -> i < fresh f.
Proof.
  unfold fresh. intros H.
  assert (Hm : list_max (ids f) <= list_max (ids f)) by lia.
  rewrite list_max_le in Hm. rewrite Forall_forall in Hm.
  specialize (Hm i H). lia.
Qed.

Lemma fresh_not_In (f : Function) : ~ In (fresh f) (ids f).
Proof. intros H. apply fresh_above in H. lia. Qed.

Lemma ids_updateBlock (i : nat) (upd : BasicBlock -> BasicBlock) (f : Function) :
  (forall b, bbId b = i -> bbId (upd b) = i) ->
  ids (updateBlock i upd f) = ids f.
Proof.
  intros Hu. unfold ids, updateBlock. rewrite map_map. apply map_ext.
  intros b. destruct (Nat.eqb_spec (bbId b) i) as [E|E]; [|reflexivity].
  rewrite (Hu b E). now symmetry.
Qed.

Lemma getBlock_updateBlock (i : nat) (upd : BasicBlock -> BasicBlock)
    (f : Function) (j : nat) :
  (forall b, bbId b = i -> bbId (upd b) = i) ->
  getBlock (updateBlock i upd f) j =
  if j =? i then option_map upd (getBlock f i) else getBlock f j.
Proof.
  intros Hu. unfold getBlock, updateBlock.
  induction f as [|b f IH]; simpl.
  - now destruct (j =? i).
  - rewrite IH. clear IH.
    destruct (Nat.eqb_spec (bbId b) i) as [E|E].
    + rewrite (Hu b E). break_eqb.
    + break_eqb.
Qed.

Lemma getBlock_removeBlock (i : nat) (f : Function) (j : nat) :
  getBlock (removeBlock i f) j = if j =? i then None else getBlock f j.
Proof.
  unfold getBlock, removeBlock. induction f as [|b f IH]; simpl.
  - now destruct (j =? i).
  - destruct (Nat.eqb_spec (bbId b) i) as [E|E]; simpl.
    + rewrite IH. destruct (Nat.eqb_spec j i) as [Ej|Ej]; [reflexivity|].
      destruct (Nat.eqb_spec (bbId b) j); [congruence | reflexivity].
    + destruct (Nat.eqb_spec (bbId b) j) as [E'|E'].
      * destruct (Nat.eqb_spec j i); [congruence | reflexivity].
      * exact IH.
Qed.

Lemma getBlock_insertBefore (pos : nat) (blk : BasicBlock) (f : Function) (j : nat) :
  getBlock f (bbId blk) = None ->
  getBlock (insertBefore pos blk f) j =
  if j =? bbId blk then Some blk else getBlock f j.
Proof.
  unfold getBlock. induction f as [|b f IH]; simpl; intros Hn.
  - rewrite (Nat.eqb_sym (bbId blk) j). now destruct (j =? bbId blk).
  - destruct (Nat.eqb_spec (bbId b) (bbId blk)) as [E|E]; [discriminate|].
    destruct (Nat.eqb_spec (bbId b) pos) as [Ep|Ep]; simpl.
    + rewrite (Nat.eqb_sym (bbId blk) j). now destruct (j =? bbId blk).
    + destruct (Nat.eqb_spec (bbId b) j) as [Ej|Ej].
      * destruct (Nat.eqb_spec j (bbId blk)); [congruence | reflexivity].
      * now apply IH.
Qed.

Lemma getBlock_moveBefore (i pos : nat) (f : Function) (j : nat) :
  getBlock (moveBefore i pos f) j = getBlock f j.
Proof.
  unfold moveBefore. destruct (getBlock f i) as [blk|] eqn:Hi; [|reflexivity].
  pose proof Hi as Hid. apply getBlock_id in Hid.
  rewrite getBlock_insertBefore.
  - rewrite Hid. rewrite getBlock_removeBlock.
    destruct (Nat.eqb_spec j i); [subst; now symmetry | reflexivity].
  - rewrite Hid, getBlock_removeBlock. now rewrite Nat.eqb_refl.
Qed.

Lemma getBlock_addCase (sw : nat) (k : Z) (d : nat) (f : Function) (j : nat) :
  getBlock (addCase sw k d f) j =
  if j =? sw
  then option_map
         (fun b => match bbTerm b with
                   | Switch v dflt cases =>
                       mkBB (bbId b) (bbInsts b) (Switch v dflt (cases ++ [(k, d)]))
                   | _ => b
                   end) (getBlock f sw)
  else getBlock f j.
Proof.
  unfold addCase. apply getBlock_updateBlock.
  intros b Hb. now destruct (bbTerm b).
Qed.

End BlockMap.

(* ------------------------------------------------------------------------- *)
(** ** Validation and entry split *)
(* ------------------------------------------------------------------------- *)

Section Validation.

Lemma saveOrigBB_spec (f : Function) :
  saveOrigBB f =
  if existsb (fun b => isa_InvokeInst (bbTerm b)) f then None else Some (ids f).
Proof.
  induction f as [|b f IH]; simpl; [reflexivity|].
  destruct (isa_InvokeInst (bbTerm b)); simpl; [reflexivity|].
  rewrite IH. now destruct (existsb _ f).
Qed.

Lemma flatten_unfold (fixStack : Function -> Function) (g : mt19937) (f : Function) :
  flatten fixStack g f =
  if rejected f then Ok (false, f)
  else f' <- rewire g f ;; Ok (true, fixStack f').
Proof.
  unfold flatten, rejected. rewrite saveOrigBB_spec.
  destruct (existsb _ f); simpl; [reflexivity|].
  unfold ids. now rewrite length_map.
Qed.

Lemma rejected_false (f : Function) :
  rejected f = false -> exists insert b rest, f = insert :: b :: rest.
Proof.
  unfold rejected. intros H. apply orb_false_elim in H. destruct H as [_ H].
  apply Nat.leb_gt in H. destruct f as [|insert [|b rest]]; simpl in H; try lia.
  now exists insert, b, rest.
Qed.

End Validation.

Section Split.

Lemma splitsEntry_successors (t : terminator) :
  splitsEntry t = (1 <? getNumSuccessors t).
Proof. unfold splitsEntry. now destruct t. Qed.

Lemma splitEntry_split (insert : BasicBlock) (rest : Function) :
  splitsEntry (bbTerm insert) = true ->
  splitEntry (insert :: rest) (ids rest) =
  (mkBB (bbId insert) (firstn (length (bbInsts insert) - 1) (bbInsts insert))
        (Br (fresh (insert :: rest)))
     :: mkBB (fresh (insert :: rest))
          (skipn (length (bbInsts insert) - 1) (bbInsts insert)) (bbTerm insert)
     :: rest,
   fresh (insert :: rest) :: ids rest).
Proof.
  intros H. unfold splitEntry. rewrite H. unfold size. simpl.
  rewrite Nat.eqb_refl.
  replace (if 1 <? length (bbInsts insert) + 1
           then length (bbInsts insert) + 1 - 1 - 1
           else length (bbInsts insert) + 1 - 1)
    with (length (bbInsts insert) - 1); [reflexivity|].
  destruct (Nat.ltb_spec 1 (length (bbInsts insert) + 1)); lia.
Qed.

Lemma splitEntry_keep (insert : BasicBlock) (rest : Function) :
  splitsEntry (bbTerm insert) = false ->
  splitEntry (insert :: rest) (ids rest) = (insert :: rest, ids rest).
Proof. intros H. unfold splitEntry. now rewrite H. Qed.

(** After line 108 the procedure is the entry followed by the blocks of
    [origBB], in this order. *)
Lemma afterSplit_shape (insert : BasicBlock) (rest : Function) :
  exists e rest',
    afterSplit (insert :: rest) = e :: rest' /\
    bbId e = bbId insert /\
    ids rest' = origBBOf (insert :: rest).
Proof.
  unfold afterSplit, origBBOf. change (tl (ids (insert :: rest))) with (ids rest).
  destruct (splitsEntry (bbTerm insert)) eqn:H.
  - rewrite (splitEntry_split _ _ H). simpl. eauto.
  - rewrite (splitEntry_keep _ _ H). simpl. eauto.
Qed.

Lemma afterSplit_NoDup (insert : BasicBlock) (rest : Function) :
  NoDup (ids (insert :: rest)) -> NoDup (ids (afterSplit (insert :: rest))).
Proof.
  intros Hnd. unfold afterSplit. change (tl (ids (insert :: rest))) with (ids rest).
  destruct (splitsEntry (bbTerm insert)) eqn:H.
  - rewrite (splitEntry_split _ _ H). simpl.
    pose proof (fresh_not_In (insert :: rest)) as Hf. simpl in Hf, Hnd.
    inversion Hnd as [|? ? Hin Hnd']; subst.
    constructor.
    + simpl. intros [E|E]; [apply Hf; now left | contradiction].
    + constructor; [|exact Hnd']. intros E. apply Hf. now right.
  - now rewrite (splitEntry_keep _ _ H).
Qed.

Lemma origBBOf_length (insert b : BasicBlock) (rest : Function) :
  0 < length (origBBOf (insert :: b :: rest)).
Proof.
  unfold origBBOf. change (tl (ids (insert :: b :: rest))) with (ids (b :: rest)).
  destruct (splitsEntry (bbTerm insert)) eqn:H.
  - rewrite (splitEntry_split _ _ H). simpl. lia.
  - rewrite (splitEntry_keep _ _ H). simpl. lia.
Qed.

End Split.

(* ------------------------------------------------------------------------- *)
(** ** The stages of the pass *)
(* ------------------------------------------------------------------------- *)

Section Vectors.

Lemma at_Ok {A : Type} (v : list A) (k : nat) (x : A) :
  at_ v k = Ok x <-> nth_error v k = Some x.
Proof.
  unfold at_. destruct (nth_error v k); split; intros H; congruence.
Qed.

Lemma at_lt {A : Type} (v : list A) (k : nat) :
  k < length v -> exists x, at_ v k = Ok x.
Proof.
  intros H. unfold at_. destruct (nth_error v k) as [x|] eqn:E; [eauto|].
  apply nth_error_None in E. lia.
Qed.

Lemma find_index_lt (x : nat) (l : list nat) :
  In x l <-> find_index x l < length l.
Proof.
  induction l as [|y l IH]; simpl.
  - split; [tauto | lia].
  - destruct (Nat.eqb_spec y x) as [E|E].
    + split; [lia | auto].
    + rewrite <- Nat.succ_lt_mono, <- IH. split; [intros [H|H]; [contradiction | exact H] | auto].
Qed.

Lemma find_index_NoDup (l : list nat) (k x : nat) :
  NoDup l -> nth_error l k = Some x -> find_index x l = k.
Proof.
  intros Hnd. revert k. induction Hnd as [|y l Hy Hnd IH]; intros k H.
  - now destruct k.
  - destruct k as [|k]; simpl in *.
    + inversion H. subst. now rewrite Nat.eqb_refl.
    + destruct (Nat.eqb_spec y x) as [E|E].
      * subst. apply nth_error_In in H. contradiction.
      * f_equal. now apply IH.
Qed.

Lemma drawLabels_length (g : mt19937) (origBB : list nat) :
  length (drawLabels g origBB) = length origBB.
Proof. unfold drawLabels. now rewrite length_map, length_seq. Qed.

End Vectors.

Section Stages.

Variables (loopEntry : nat) (origBB : list nat) (bbIndex : list Z).

(** The two blocks that lines 115-135 write. *)
Lemma buildDispatch_spec (insert : nat) (f : Function) (first : Z) (e : BasicBlock) :
  nth_error bbIndex 0 = Some first ->
  getBlock f insert = Some e ->
  exists f',
    buildDispatch insert bbIndex f = Ok (f', fresh f) /\
    forall j,
      getBlock f' j =
      if j =? fresh f
      then Some (mkBB (fresh f) [LoadInst load (Reg switchVar)]
                   (Switch (Reg load) (fresh f) []))
      else if j =? insert
      then Some (mkBB insert
                   (bbInsts e ++ [AllocaInst switchVar;
                                  StoreInst (ConstI32 first) (Reg switchVar)])
                   (Br (fresh f)))
      else getBlock f j.
Proof.
  intros Hfirst He. unfold buildDispatch.
  apply at_Ok in Hfirst. rewrite Hfirst. simpl.
  eexists. split; [reflexivity|]. intros j.
  rewrite getBlock_moveBefore.
  assert (Hu : forall b, bbId b = insert ->
            bbId (mkBB (bbId b)
                    (bbInsts b ++ [AllocaInst switchVar;
                                   StoreInst (ConstI32 first) (Reg switchVar)])
                    (Br (fresh f))) = insert) by (intros b Hb; exact Hb).
  rewrite getBlock_insertBefore; simpl bbId.
  - destruct (j =? fresh f); [reflexivity|].
    rewrite (getBlock_updateBlock _ _ _ _ Hu), He. simpl.
    rewrite (getBlock_id _ _ _ He). reflexivity.
  - apply getBlock_None. rewrite (ids_updateBlock _ _ _ Hu). apply fresh_not_In.
Qed.

(** Lines 141-154 append one case per element of [bbSeq] and leave every
    other block as it is. *)
Lemma installCases_spec (bbSeq : list nat) :
  forall (f r : Function) (insts : list instr) (v : value) (d : nat)
         (cases : list (Z * nat)),
    installCases loopEntry origBB bbIndex bbSeq f = Ok r ->
    getBlock f loopEntry = Some (mkBB loopEntry insts (Switch v d cases)) ->
    getBlock r loopEntry =
      Some (mkBB loopEntry insts
              (Switch v d (cases ++ casesOf origBB bbIndex bbSeq))) /\
    forall j, j <> loopEntry -> getBlock r j = getBlock f j.
Proof.
  induction bbSeq as [|b bbSeq IH]; intros f r insts v d cases Hr Hl; simpl in Hr.
  - inversion Hr; subst. unfold casesOf. simpl. rewrite app_nil_r. auto.
  - destruct (at_ origBB b) as [i|] eqn:Hi; simpl in Hr; [|discriminate].
    destruct (at_ bbIndex b) as [numCase|] eqn:Hn; simpl in Hr; [|discriminate].
    apply at_Ok in Hi, Hn.
    specialize (IH _ r insts v d (cases ++ [(numCase, i)]) Hr).
    destruct IH as [IH1 IH2].
    + rewrite getBlock_addCase, Nat.eqb_refl, getBlock_moveBefore, Hl. reflexivity.
    + split.
      * rewrite IH1. unfold casesOf. simpl.
        rewrite (nth_error_nth _ _ _ Hi), (nth_error_nth _ _ _ Hn).
        now rewrite <- app_assoc.
      * intros j Hj. rewrite (IH2 j Hj), getBlock_addCase.
        destruct (Nat.eqb_spec j loopEntry); [contradiction|].
        apply getBlock_moveBefore.
Qed.

Lemma installCases_total (bbSeq : list nat) :
  length bbIndex = length origBB ->
  (forall b, In b bbSeq -> b < length origBB) ->
  forall f, exists r, installCases loopEntry origBB bbIndex bbSeq f = Ok r.
Proof.
  intros Hlen. induction bbSeq as [|b bbSeq IH]; intros Hb f; simpl.
  - eauto.
  - assert (Hlt : b < length origBB) by (apply Hb; now left).
    destruct (at_lt origBB b Hlt) as [i Hi]. rewrite Hi. simpl.
    rewrite <- Hlen in Hlt.
    destruct (at_lt bbIndex b Hlt) as [n Hn]. rewrite Hn. simpl.
    apply IH. intros b' Hb'. apply Hb. now right.
Qed.

Variable bbSeq : list nat.

Lemma rewriteBlock_id (b : nat) (blk blk' : BasicBlock) :
  rewriteBlock loopEntry origBB bbIndex bbSeq b blk = Ok blk' ->
  bbId blk' = bbId blk.
Proof.
  unfold rewriteBlock.
  destruct (getNumSuccessors (bbTerm blk) =? 0); [intros H; now inversion H|].
  destruct (if getNumSuccessors (bbTerm blk) =? 1 then _ else _) as [[[c sf] st]|];
    simpl; [|discriminate].
  destruct (at_ bbIndex b); simpl; [|discriminate].
  destruct (at_ bbIndex sf); simpl; [|discriminate].
  destruct (at_ bbIndex st); simpl; [|discriminate].
  intros H. now inversion H.
Qed.

(** A block without successor is kept. *)
Lemma rewriteBlock_ret (b : nat) (blk : BasicBlock) :
  getNumSuccessors (bbTerm blk) = 0 ->
  rewriteBlock loopEntry origBB bbIndex bbSeq b blk = Ok blk.
Proof. intros H. unfold rewriteBlock. now rewrite H. Qed.

(** A block with one successor: the condition is the constant 0, the false
    label that of the successor. *)
Lemma rewriteBlock_jump (b : nat) (blk blk' : BasicBlock) :
  getNumSuccessors (bbTerm blk) = 1 ->
  rewriteBlock loopEntry origBB bbIndex bbSeq b blk = Ok blk' ->
  exists lb lf lt,
    nth_error bbIndex b = Some lb /\
    nth_error bbIndex (find_index (getSuccessor (bbTerm blk) 0) origBB) = Some lf /\
    nth_error bbIndex (find_index b bbSeq) = Some lt /\
    blk' = mkBB (bbId blk)
             (bbInsts blk ++ updateStateCode (bbId blk) (ConstI1 false) lb lf lt)
             (Br loopEntry).
Proof.
  intros H1. unfold rewriteBlock. rewrite H1. simpl.
  destruct (at_ bbIndex b) as [lb|] eqn:Hb; simpl; [|discriminate].
  destruct (at_ bbIndex (find_index _ origBB)) as [lf|] eqn:Hf; simpl; [|discriminate].
  destruct (at_ bbIndex (find_index b bbSeq)) as [lt|] eqn:Ht; simpl; [|discriminate].
  intros H. inversion H. apply at_Ok in Hb, Hf, Ht. now exists lb, lf, lt.
Qed.

(** A block that ends in a conditional branch. *)
Lemma rewriteBlock_branch (b : nat) (blk blk' : BasicBlock) (c : value) (t e : nat) :
  bbTerm blk = CondBr c t e ->
  rewriteBlock loopEntry origBB bbIndex bbSeq b blk = Ok blk' ->
  exists lb lf lt,
    nth_error bbIndex b = Some lb /\
    nth_error bbIndex (find_index e origBB) = Some lf /\
    nth_error bbIndex (find_index t origBB) = Some lt /\
    blk' = mkBB (bbId blk) (bbInsts blk ++ updateStateCode (bbId blk) c lb lf lt)
             (Br loopEntry).
Proof.
  intros Ht. unfold rewriteBlock, getSuccessor. rewrite Ht. simpl.
  destruct (at_ bbIndex b) as [lb|] eqn:Hb; simpl; [|discriminate].
  destruct (at_ bbIndex (find_index e origBB)) as [lf|] eqn:Hf; simpl; [|discriminate].
  destruct (at_ bbIndex (find_index t origBB)) as [lt|] eqn:Hl; simpl; [|discriminate].
  intros H. inversion H. apply at_Ok in Hb, Hf, Hl. now exists lb, lf, lt.
Qed.

(** Whatever the terminator, a rewritten block with a successor ends in the
    next-state code and the jump to the loop header. *)
Lemma rewriteBlock_shape (b : nat) (blk blk' : BasicBlock) :
  getNumSuccessors (bbTerm blk) <> 0 ->
  rewriteBlock loopEntry origBB bbIndex bbSeq b blk = Ok blk' ->
  exists c lb lf lt,
    blk' = mkBB (bbId blk) (bbInsts blk ++ updateStateCode (bbId blk) c lb lf lt)
             (Br loopEntry).
Proof.
  intros H0 H. destruct (Nat.eq_dec (getNumSuccessors (bbTerm blk)) 1) as [H1|H1].
  - destruct (rewriteBlock_jump _ _ _ H1 H) as (lb & lf & lt & _ & _ & _ & E). eauto.
  - unfold rewriteBlock in H.
    apply Nat.eqb_neq in H0, H1. rewrite H0, H1 in H.
    destruct (getNumSuccessors (bbTerm blk) =? 2); simpl in H; [|discriminate].
    destruct (bbTerm blk) eqn:Et; try discriminate. rewrite <- Et in H.
    fold (rewriteBlock loopEntry origBB bbIndex bbSeq b blk) in H.
    simpl in H.
    destruct (at_ bbIndex b) as [lb|]; simpl in H; [|discriminate].
    destruct (at_ bbIndex _) as [lf|] in H; simpl in H; [|discriminate].
    destruct (at_ bbIndex _) as [lt|] in H; simpl in H; [|discriminate].
    inversion H. eauto.
Qed.

End Stages.

Section Recalc.

Variables (loopEntry : nat) (origBB : list nat) (bbIndex : list Z) (bbSeq : list nat).

(** Lines 156-195 leave alone every block that is not at a position of
    [todo]. *)
Lemma recalcSwitchVar_other (todo : list nat) :
  forall f r,
    recalcSwitchVar loopEntry origBB bbIndex bbSeq todo f = Ok r ->
    forall j, (forall b, In b todo -> nth_error origBB b <> Some j) ->
              getBlock r j = getBlock f j.
Proof.
  induction todo as [|b todo IH]; intros f r Hr j Hj; simpl in Hr.
  - now inversion Hr.
  - destruct (at_ origBB b) as [i|] eqn:Hi; simpl in Hr; [|discriminate].
    apply at_Ok in Hi.
    destruct (getBlock f i) as [blk|] eqn:Hblk; [|discriminate].
    destruct (rewriteBlock loopEntry origBB bbIndex bbSeq b blk) as [blk'|] eqn:Hrw;
      simpl in Hr; [|discriminate].
    rewrite (IH _ _ Hr j) by (intros b' Hb'; apply Hj; now right).
    rewrite getBlock_updateBlock.
    + destruct (Nat.eqb_spec j i) as [E|E]; [|reflexivity].
      subst j. exfalso. apply (Hj b); [now left | exact Hi].
    + intros _ _. rewrite (rewriteBlock_id _ _ _ _ _ _ _ Hrw).
      exact (getBlock_id _ _ _ Hblk).
Qed.

Hypothesis origBB_NoDup : NoDup origBB.

Lemma origBB_inj (b b' i : nat) :
  nth_error origBB b = Some i -> nth_error origBB b' = Some i -> b = b'.
Proof.
  intros H H'. apply (proj1 (NoDup_nth_error origBB) origBB_NoDup).
  - apply nth_error_Some. congruence.
  - congruence.
Qed.

(** Lines 156-195 rewrite exactly the blocks whose position is in [todo],
    each from the state it had before the loop. *)
Lemma recalcSwitchVar_spec (todo : list nat) :
  NoDup todo ->
  forall f r,
    recalcSwitchVar loopEntry origBB bbIndex bbSeq todo f = Ok r ->
    (forall j, (forall b, In b todo -> nth_error origBB b <> Some j) ->
               getBlock r j = getBlock f j) /\
    (forall b i, In b todo -> nth_error origBB b = Some i ->
       exists blk blk',
         getBlock f i = Some blk /\
         rewriteBlock loopEntry origBB bbIndex bbSeq b blk = Ok blk' /\
         getBlock r i = Some blk').
Proof.
  induction todo as [|b todo IH]; intros Hnd f r Hr; simpl in Hr.
  - inversion Hr; subst. split; [reflexivity | intros b i []].
  - inversion Hnd as [|? ? Hb Hnd']; subst.
    destruct (at_ origBB b) as [i|] eqn:Hi; simpl in Hr; [|discriminate].
    apply at_Ok in Hi.
    destruct (getBlock f i) as [blk|] eqn:Hblk; [|discriminate].
    destruct (rewriteBlock loopEntry origBB bbIndex bbSeq b blk) as [blk'|] eqn:Hrw;
      simpl in Hr; [|discriminate].
    assert (Hu : forall x : BasicBlock, bbId x = i -> bbId blk' = i).
    { intros _ _. rewrite (rewriteBlock_id _ _ _ _ _ _ _ Hrw).
      exact (getBlock_id _ _ _ Hblk). }
    destruct (IH Hnd' _ _ Hr) as [IH1 IH2]. split.
    + intros j Hj. rewrite IH1.
      * rewrite (getBlock_updateBlock _ _ _ _ Hu).
        destruct (Nat.eqb_spec j i) as [E|E]; [|reflexivity].
        subst j. exfalso. apply (Hj b); [now left | exact Hi].
      * intros b' Hb'. apply Hj. now right.
    + intros b' i' [E|Hin] Hi'.
      * subst b'. assert (i' = i) by congruence. subst i'.
        exists blk, blk'. repeat split; [assumption..|].
        rewrite IH1.
        -- rewrite (getBlock_updateBlock _ _ _ _ Hu), Nat.eqb_refl, Hblk. reflexivity.
        -- intros b' Hb' E. apply Hb. now rewrite (origBB_inj _ _ _ Hi E).
      * destruct (IH2 b' i' Hin Hi') as (blk2 & blk2' & H1 & H2 & H3).
        exists blk2, blk2'. repeat split; [|assumption..].
        rewrite (getBlock_updateBlock _ _ _ _ Hu) in H1.
        destruct (Nat.eqb_spec i' i) as [E|E]; [|exact H1].
        subst i'. exfalso. apply Hb. now rewrite (origBB_inj _ _ _ Hi Hi').
Qed.

(** The loop stops only on a fault of [rewriteBlock] at one of its blocks. *)
Lemma recalcSwitchVar_faults (Q : fault -> Prop) (todo : list nat) :
  NoDup todo ->
  forall f,
    (forall b, In b todo ->
       exists i blk,
         nth_error origBB b = Some i /\ getBlock f i = Some blk /\
         match rewriteBlock loopEntry origBB bbIndex bbSeq b blk with
         | Ok _ => True
         | Fail e => Q e
         end) ->
    match recalcSwitchVar loopEntry origBB bbIndex bbSeq todo f with
    | Ok _ => True
    | Fail e => Q e
    end.
Proof.
  induction todo as [|b todo IH]; intros Hnd f H; simpl; [exact I|].
  inversion Hnd as [|? ? Hb Hnd']; subst.
  destruct (H b (or_introl eq_refl)) as (i & blk & Hi & Hblk & Hrw).
  apply at_Ok in Hi. rewrite Hi. simpl. rewrite Hblk. apply at_Ok in Hi.
  destruct (rewriteBlock loopEntry origBB bbIndex bbSeq b blk) as [blk'|e] eqn:E;
    simpl; [|exact Hrw].
  apply IH; [exact Hnd'|]. intros b' Hb'.
  destruct (H b' (or_intror Hb')) as (i' & blk2 & Hi' & Hblk2 & Hrw2).
  exists i', blk2. repeat split; [assumption| |assumption].
  rewrite getBlock_updateBlock.
  - destruct (Nat.eqb_spec i' i) as [E'|E']; [|exact Hblk2].
    subst i'. exfalso. apply Hb. now rewrite (origBB_inj _ _ _ Hi Hi').
  - intros _ _. rewrite (rewriteBlock_id _ _ _ _ _ _ _ E).
    exact (getBlock_id _ _ _ Hblk).
Qed.

End Recalc.

Section Rewire.

Variable g : mt19937.

Lemma rewire_unfold (insert : BasicBlock) (rest : Function) :
  let f := insert :: rest in
  rewire g f =
  (d <- buildDispatch (bbId insert) (bbIndexOf g f) (afterSplit f) ;;
   f3 <- installCases (snd d) (origBBOf f) (bbIndexOf g f) (bbSeqOf g f) (fst d) ;;
   recalcSwitchVar (snd d) (origBBOf f) (bbIndexOf g f) (bbSeqOf g f) (bbSeqOf g f) f3).
Proof.
  intros f. unfold rewire, bbIndexOf, bbSeqOf, afterSplit, origBBOf. subst f.
  destruct (splitEntry (insert :: rest) (tl (ids (insert :: rest)))) as [f1 origBB].
  simpl fst. simpl snd.
  destruct (buildDispatch (bbId insert) (drawLabels g origBB) f1) as [[f2 L]|];
    reflexivity.
Qed.

Lemma bbSeqOf_perm (f : Function) :
  Permutation (bbSeqOf g f) (seq 0 (length (origBBOf f))).
Proof. apply std_shuffle_perm. Qed.

Lemma bbSeqOf_NoDup (f : Function) : NoDup (bbSeqOf g f).
Proof.
  apply (Permutation_NoDup (Permutation_sym (bbSeqOf_perm f))), seq_NoDup.
Qed.

Lemma bbSeqOf_In (f : Function) (b : nat) :
  In b (bbSeqOf g f) <-> b < length (origBBOf f).
Proof.
  split; intros H.
  - apply (Permutation_in _ (bbSeqOf_perm f)) in H. apply in_seq in H. lia.
  - apply (Permutation_in _ (Permutation_sym (bbSeqOf_perm f))).
    apply in_seq. lia.
Qed.

Lemma bbSeqOf_length (f : Function) : length (bbSeqOf g f) = length (origBBOf f).
Proof. rewrite (Permutation_length (bbSeqOf_perm f)). apply length_seq. Qed.

Lemma bbIndexOf_length (f : Function) : length (bbIndexOf g f) = length (origBBOf f).
Proof. apply drawLabels_length. Qed.

(** The loop header when line 195 is passed: the load, and the switch with
    the cases of lines 141-154 and itself as default destination. *)
Lemma rewire_loopEntry (f r : Function) :
  rejected f = false ->
  rewire g f = Ok r ->
  getBlock r (loopEntryOf f) =
    Some (mkBB (loopEntryOf f) [LoadInst load (Reg switchVar)]
            (Switch (Reg load) (loopEntryOf f)
               (casesOf (origBBOf f) (bbIndexOf g f) (bbSeqOf g f)))).
Proof.
  intros Hrej Hr.
  destruct (rejected_false _ Hrej) as (insert & b0 & rest & ->).
  destruct (afterSplit_shape insert (b0 :: rest)) as (e & rest' & Hsplit & He & Hrest).
  pose proof (origBBOf_length insert b0 rest) as Hlen.
  set (f := insert :: b0 :: rest) in *.
  assert (HL : ~ In (loopEntryOf f) (origBBOf f)).
  { intros E. apply (fresh_not_In (afterSplit f)). fold (loopEntryOf f).
    rewrite Hsplit. simpl. right. now rewrite Hrest. }
  destruct (nth_error (bbIndexOf g f) 0) as [first|] eqn:Hfirst.
  2:{ apply nth_error_None in Hfirst. rewrite bbIndexOf_length in Hfirst. lia. }
  assert (Hentry : getBlock (afterSplit f) (bbId insert) = Some e).
  { rewrite Hsplit, <- He. apply getBlock_head. }
  destruct (buildDispatch_spec (bbIndexOf g f) (bbId insert) (afterSplit f) first e
              Hfirst Hentry) as (f2 & Hbuild & Hf2).
  fold (loopEntryOf f) in Hbuild, Hf2.
  unfold f in Hr. rewrite rewire_unfold in Hr. fold f in Hr.
  rewrite Hbuild in Hr. simpl in Hr.
  destruct (installCases (loopEntryOf f) (origBBOf f) (bbIndexOf g f) (bbSeqOf g f) f2)
    as [f3|] eqn:Hinst; simpl in Hr; [|discriminate].
  assert (Hloop : getBlock f2 (loopEntryOf f) =
                  Some (mkBB (loopEntryOf f) [LoadInst load (Reg switchVar)]
                          (Switch (Reg load) (loopEntryOf f) []))).
  { now rewrite Hf2, Nat.eqb_refl. }
  destruct (installCases_spec _ _ _ _ _ _ _ _ _ _ Hinst Hloop) as [Hf3L _].
  rewrite (recalcSwitchVar_other _ _ _ _ _ _ _ Hr); [exact Hf3L|].
  intros b _ E. apply HL. exact (nth_error_In _ _ E).
Qed.

Lemma casesOf_seq (origBB : list nat) (bbIndex : list Z) :
  length bbIndex = length origBB ->
  casesOf origBB bbIndex (seq 0 (length origBB)) = combine bbIndex origBB.
Proof.
  unfold casesOf. revert bbIndex.
  induction origBB as [|i origBB IH]; intros [|l bbIndex] Hlen;
    simpl in *; try discriminate; [reflexivity|].
  f_equal. rewrite <- seq_shift, map_map. apply IH. now inversion Hlen.
Qed.

(** Up to their order, the cases installed are the dispatched blocks, each
    once, under the label drawn for it. *)
Lemma cases_are_labelled_blocks (f : Function) :
  Permutation (casesOf (origBBOf f) (bbIndexOf g f) (bbSeqOf g f))
              (combine (bbIndexOf g f) (origBBOf f)).
Proof.
  rewrite <- (casesOf_seq (origBBOf f) (bbIndexOf g f) (bbIndexOf_length f)).
  unfold casesOf. apply Permutation_map, bbSeqOf_perm.
Qed.

(** What the procedure is made of when line 195 is passed: the entry, the
    loop header, and the dispatched blocks, each rewritten once from its
    state after line 108. *)
Lemma rewire_spec (f r : Function) :
  NoDup (ids f) ->
  rejected f = false ->
  rewire g f = Ok r ->
  (exists e rest',
     afterSplit f = e :: rest' /\
     getBlock r (insertOf f) =
       Some (mkBB (insertOf f)
               (bbInsts e ++ [AllocaInst switchVar;
                              StoreInst (ConstI32 (nth 0 (bbIndexOf g f) 0%Z))
                                (Reg switchVar)])
               (Br (loopEntryOf f)))) /\
  getBlock r (loopEntryOf f) =
    Some (mkBB (loopEntryOf f) [LoadInst load (Reg switchVar)]
            (Switch (Reg load) (loopEntryOf f)
               (casesOf (origBBOf f) (bbIndexOf g f) (bbSeqOf g f)))) /\
  (forall b i, nth_error (origBBOf f) b = Some i ->
     exists blk blk',
       getBlock (afterSplit f) i = Some blk /\
       rewriteBlock (loopEntryOf f) (origBBOf f) (bbIndexOf g f) (bbSeqOf g f) b blk
         = Ok blk' /\
       getBlock r i = Some blk') /\
  (forall j, j <> loopEntryOf f -> ~ In j (ids (afterSplit f)) -> getBlock r j = None).
Proof.
  intros Hnd Hrej Hr.
  destruct (rejected_false _ Hrej) as (insert & b0 & rest & ->).
  destruct (afterSplit_shape insert (b0 :: rest)) as (e & rest' & Hsplit & He & Hrest).
  pose proof (afterSplit_NoDup _ _ Hnd) as Hnd1.
  pose proof (origBBOf_length insert b0 rest) as Hlen.
  set (f := insert :: b0 :: rest) in *.
  assert (Hids : ids (afterSplit f) = bbId insert :: origBBOf f).
  { rewrite Hsplit. simpl. now rewrite He, Hrest. }
  rewrite Hids in Hnd1. inversion Hnd1 as [|? ? Hent Hnd2]; subst.
  assert (HL : ~ In (loopEntryOf f) (bbId insert :: origBBOf f)).
  { rewrite <- Hids. apply fresh_not_In. }
  destruct (nth_error (bbIndexOf g f) 0) as [first|] eqn:Hfirst.
  2:{ apply nth_error_None in Hfirst. rewrite bbIndexOf_length in Hfirst. lia. }
  assert (Hentry : getBlock (afterSplit f) (bbId insert) = Some e).
  { rewrite Hsplit, <- He. apply getBlock_head. }
  destruct (buildDispatch_spec (bbIndexOf g f) (bbId insert) (afterSplit f) first e
              Hfirst Hentry) as (f2 & Hbuild & Hf2).
  fold (loopEntryOf f) in Hbuild, Hf2.
  unfold f in Hr. rewrite rewire_unfold in Hr. fold f in Hr.
  rewrite Hbuild in Hr. simpl in Hr.
  destruct (installCases (loopEntryOf f) (origBBOf f) (bbIndexOf g f) (bbSeqOf g f) f2)
    as [f3|] eqn:Hinst; simpl in Hr; [|discriminate].
  assert (Hloop : getBlock f2 (loopEntryOf f) =
                  Some (mkBB (loopEntryOf f) [LoadInst load (Reg switchVar)]
                          (Switch (Reg load) (loopEntryOf f) []))).
  { now rewrite Hf2, Nat.eqb_refl. }
  destruct (installCases_spec _ _ _ _ _ _ _ _ _ _ Hinst Hloop) as [Hf3L Hf3].
  simpl app in Hf3L.
  destruct (recalcSwitchVar_spec (loopEntryOf f) (origBBOf f) (bbIndexOf g f)
              (bbSeqOf g f) Hnd2 (bbSeqOf g f) (bbSeqOf_NoDup f) _ _ Hr) as [Hr1 Hr2].
  assert (Hkeep : forall j, ~ In j (origBBOf f) -> getBlock r j = getBlock f3 j).
  { intros j Hj. apply Hr1. intros b _ E. apply Hj. eapply nth_error_In, E. }
  assert (Hother : forall j, j <> loopEntryOf f -> j <> bbId insert ->
                     getBlock f3 j = getBlock (afterSplit f) j).
  { intros j H1 H2. rewrite (Hf3 j H1), Hf2.
    destruct (Nat.eqb_spec j (loopEntryOf f)); [contradiction|].
    destruct (Nat.eqb_spec j (bbId insert)); [contradiction|]. reflexivity. }
  split; [|split; [|split]].
  - exists e, rest'. split; [exact Hsplit|].
    change (insertOf f) with (bbId insert).
    rewrite (Hkeep _ Hent), Hf3, Hf2.
    + destruct (Nat.eqb_spec (bbId insert) (loopEntryOf f)) as [E|E].
      * exfalso. apply HL. left. now symmetry.
      * rewrite Nat.eqb_refl. now rewrite (nth_error_nth _ _ _ Hfirst).
    + intros E. apply HL. left. now symmetry.
  - rewrite Hkeep; [exact Hf3L|]. intros E. apply HL. now right.
  - intros b i Hi.
    assert (Hb : In b (bbSeqOf g f)).
    { apply bbSeqOf_In, nth_error_Some. congruence. }
    destruct (Hr2 b i Hb Hi) as (blk & blk' & H1 & H2 & H3).
    exists blk, blk'. repeat split; [|assumption..].
    rewrite <- Hother; [exact H1| |].
    + intros E. apply HL. right. rewrite <- E. eapply nth_error_In, Hi.
    + intros E. apply Hent. rewrite <- E. eapply nth_error_In, Hi.
  - intros j HjL Hj. rewrite Hids in Hj.
    rewrite Hkeep; [|intros E; apply Hj; now right].
    rewrite Hother; [|exact HjL|intros E; apply Hj; now left].
    apply getBlock_None. now rewrite Hids.
Qed.

End Rewire.

(* ------------------------------------------------------------------------- *)
(** ** When the pass goes through *)
(* ------------------------------------------------------------------------- *)

Section Totality.

Variables (loopEntry : nat) (origBB : list nat) (bbIndex : list Z) (bbSeq : list nat).

Lemma successorsIn_In (blk : BasicBlock) (s : nat) :
  successorsIn origBB blk = true -> In s (successors (bbTerm blk)) -> In s origBB.
Proof.
  unfold successorsIn. rewrite forallb_forall. intros H Hs.
  specialize (H s Hs). apply existsb_exists in H. destruct H as (x & Hx & E).
  apply Nat.eqb_eq in E. now subst.
Qed.

(** With its indices in range, [rewriteBlock] can only stop on the cast of
    a two-successor terminator that is not a branch. *)
Lemma rewriteBlock_faults (b : nat) (blk : BasicBlock) :
  length bbIndex = length origBB ->
  length bbSeq = length origBB ->
  b < length origBB ->
  In b bbSeq ->
  atMostTwoSuccessors blk = true ->
  successorsIn origBB blk = true ->
  match rewriteBlock loopEntry origBB bbIndex bbSeq b blk with
  | Ok _ => True
  | Fail e => e = BadCast /\ twoWayIsBranch blk = false
  end.
Proof.
  intros Hlen Hlen' Hb Hin H2 Hs.
  assert (Hidx : forall s, In s (successors (bbTerm blk)) ->
                   exists l, at_ bbIndex (find_index s origBB) = Ok l).
  { intros s Hin'. apply at_lt. rewrite Hlen. apply find_index_lt.
    now apply (successorsIn_In blk). }
  assert (Hbb : exists l, at_ bbIndex b = Ok l) by (apply at_lt; lia).
  assert (Hbs : exists l, at_ bbIndex (find_index b bbSeq) = Ok l).
  { apply at_lt. rewrite Hlen, <- Hlen'. now apply find_index_lt. }
  destruct Hbb as [lb Hlb]. destruct Hbs as [lt Hlt].
  unfold atMostTwoSuccessors in H2. apply Nat.leb_le in H2.
  unfold rewriteBlock, twoWayIsBranch, getSuccessor, getNumSuccessors in *.
  destruct (successors (bbTerm blk)) as [|s0 [|s1 [|s2 l]]] eqn:Hsucc;
    simpl in H2 |- *; try lia; try exact I.
  - destruct (Hidx s0 (or_introl eq_refl)) as [lf Hlf].
    rewrite Hlb, Hlf, Hlt. simpl. exact I.
  - destruct (bbTerm blk) eqn:Ht; simpl; auto.
    simpl in Hsucc. inversion Hsucc; subst.
    destruct (Hidx s0 (or_introl eq_refl)) as [l0 Hl0].
    destruct (Hidx s1 (or_intror (or_introl eq_refl))) as [l1 Hl1].
    rewrite Hlb, Hl1, Hl0. simpl. exact I.
Qed.

End Totality.

Section RewireTotal.

Variable g : mt19937.

Lemma dispatchedBlocks_get (f : Function) (b i : nat) :
  NoDup (ids f) -> rejected f = false ->
  nth_error (origBBOf f) b = Some i ->
  exists blk,
    nth_error (dispatchedBlocks f) b = Some blk /\
    bbId blk = i /\
    getBlock (afterSplit f) i = Some blk.
Proof.
  intros Hnd Hrej Hi.
  destruct (rejected_false _ Hrej) as (insert & b0 & rest & ->).
  destruct (afterSplit_shape insert (b0 :: rest)) as (e & rest' & Hsplit & He & Hrest).
  pose proof (afterSplit_NoDup _ _ Hnd) as Hnd1.
  unfold dispatchedBlocks. rewrite Hsplit in *. simpl tl.
  rewrite <- Hrest in Hi. unfold ids in Hi. rewrite nth_error_map in Hi.
  destruct (nth_error rest' b) as [blk|] eqn:Hblk; [|discriminate].
  simpl in Hi. inversion Hi as [Hid]. exists blk. repeat split.
  simpl in Hnd1. inversion Hnd1 as [|? ? Hent Hnd2]; subst.
  rewrite getBlock_tail.
  - now apply (getBlock_nth rest' b).
  - intros E. apply Hent. rewrite <- E. apply in_map. eapply nth_error_In, Hblk.
Qed.

(** The pass stops before line 197 only on a fault of [rewriteBlock] at a
    dispatched block. *)
Lemma rewire_faults (Q : fault -> Prop) (f : Function) :
  NoDup (ids f) ->
  rejected f = false ->
  (forall b blk,
     nth_error (dispatchedBlocks f) b = Some blk ->
     match rewriteBlock (loopEntryOf f) (origBBOf f) (bbIndexOf g f) (bbSeqOf g f) b blk with
     | Ok _ => True
     | Fail e => Q e
     end) ->
  match rewire g f with
  | Ok _ => True
  | Fail e => Q e
  end.
Proof.
  intros Hnd Hrej Hblocks.
  pose proof (dispatchedBlocks_get f) as Hget.
  destruct (rejected_false _ Hrej) as (insert & b0 & rest & Ef).
  rewrite Ef in *.
  destruct (afterSplit_shape insert (b0 :: rest)) as (e & rest' & Hsplit & He & Hrest).
  pose proof (afterSplit_NoDup _ _ Hnd) as Hnd1.
  pose proof (origBBOf_length insert b0 rest) as Hlen.
  set (f0 := insert :: b0 :: rest) in *.
  assert (Hids : ids (afterSplit f0) = bbId insert :: origBBOf f0).
  { rewrite Hsplit. simpl. now rewrite He, Hrest. }
  rewrite Hids in Hnd1. inversion Hnd1 as [|? ? Hent Hnd2]; subst.
  assert (HL : ~ In (loopEntryOf f0) (bbId insert :: origBBOf f0)).
  { rewrite <- Hids. apply fresh_not_In. }
  destruct (nth_error (bbIndexOf g f0) 0) as [first|] eqn:Hfirst.
  2:{ apply nth_error_None in Hfirst. rewrite bbIndexOf_length in Hfirst. lia. }
  assert (Hentry : getBlock (afterSplit f0) (bbId insert) = Some e).
  { rewrite Hsplit, <- He. apply getBlock_head. }
  destruct (buildDispatch_spec (bbIndexOf g f0) (bbId insert) (afterSplit f0) first e
              Hfirst Hentry) as (f2 & Hbuild & Hf2).
  fold (loopEntryOf f0) in Hbuild, Hf2.
  unfold f0 at 1. rewrite rewire_unfold. fold f0.
  rewrite Hbuild. simpl.
  destruct (installCases_total (loopEntryOf f0) (origBBOf f0) (bbIndexOf g f0)
              (bbSeqOf g f0) (bbIndexOf_length g f0)
              (fun b Hb => proj1 (bbSeqOf_In g f0 b) Hb) f2) as [f3 Hinst].
  rewrite Hinst. simpl.
  assert (Hloop : getBlock f2 (loopEntryOf f0) =
                  Some (mkBB (loopEntryOf f0) [LoadInst load (Reg switchVar)]
                          (Switch (Reg load) (loopEntryOf f0) []))).
  { now rewrite Hf2, Nat.eqb_refl. }
  destruct (installCases_spec _ _ _ _ _ _ _ _ _ _ Hinst Hloop) as [_ Hf3].
  apply recalcSwitchVar_faults; [exact Hnd2 | apply bbSeqOf_NoDup |].
  intros b Hb. apply bbSeqOf_In in Hb.
  destruct (nth_error (origBBOf f0) b) as [i|] eqn:Hi.
  2:{ apply nth_error_None in Hi. lia. }
  destruct (Hget b i Hnd Hrej Hi) as (blk & Hblk & Hid & Hg).
  exists i, blk. repeat split; [| now apply Hblocks].
  assert (Hin : In i (origBBOf f0)) by (eapply nth_error_In, Hi).
  rewrite Hf3, Hf2.
  - destruct (Nat.eqb_spec i (loopEntryOf f0)) as [E|E].
    { exfalso. apply HL. right. now rewrite <- E. }
    destruct (Nat.eqb_spec i (bbId insert)) as [E'|E'].
    { exfalso. apply Hent. now rewrite <- E'. }
    exact Hg.
  - intros E. apply HL. right. now rewrite <- E.
Qed.

Lemma inBounds_blocks (f : Function) (b : nat) (blk : BasicBlock) :
  inBounds f = true ->
  nth_error (dispatchedBlocks f) b = Some blk ->
  atMostTwoSuccessors blk = true /\ successorsIn (origBBOf f) blk = true.
Proof.
  unfold inBounds. rewrite forallb_forall. intros H Hb.
  apply andb_prop, H. eapply nth_error_In, Hb.
Qed.

Lemma dispatchedBlocks_length (f : Function) :
  rejected f = false -> length (dispatchedBlocks f) = length (origBBOf f).
Proof.
  intros Hrej. destruct (rejected_false _ Hrej) as (insert & b0 & rest & ->).
  destruct (afterSplit_shape insert (b0 :: rest)) as (e & rest' & Hsplit & He & Hrest).
  unfold dispatchedBlocks. rewrite Hsplit. simpl. rewrite <- Hrest.
  unfold ids. now rewrite length_map.
Qed.

(** Under [inBounds] neither the assertion nor a vector read can fail. *)
Lemma rewire_inBounds (f : Function) :
  NoDup (ids f) -> rejected f = false -> inBounds f = true ->
  match rewire g f with
  | Ok _ => True
  | Fail e => e = BadCast /\ normalized f = false
  end.
Proof.
  intros Hnd Hrej Hin. apply rewire_faults; [assumption..|].
  intros b blk Hb.
  destruct (inBounds_blocks f b blk Hin Hb) as [H2 Hs].
  assert (Hlt : b < length (origBBOf f)).
  { rewrite <- dispatchedBlocks_length by assumption. apply nth_error_Some. congruence. }
  pose proof (rewriteBlock_faults (loopEntryOf f) (origBBOf f) (bbIndexOf g f)
                (bbSeqOf g f) b blk (bbIndexOf_length g f) (bbSeqOf_length g f)
                Hlt (proj2 (bbSeqOf_In g f b) Hlt) H2 Hs) as H.
  destruct (rewriteBlock _ _ _ _ b blk); [exact I|].
  destruct H as [-> Hbr]. split; [reflexivity|].
  unfold normalized. rewrite Hin. simpl.
  destruct (forallb twoWayIsBranch (dispatchedBlocks f)) eqn:E; [|reflexivity].
  rewrite forallb_forall in E. rewrite E in Hbr; [discriminate|].
  eapply nth_error_In, Hb.
Qed.

(** On a normalized procedure the pass reaches line 197. *)
Lemma rewire_total (f : Function) :
  NoDup (ids f) -> rejected f = false -> normalized f = true ->
  exists r, rewire g f = Ok r.
Proof.
  intros Hnd Hrej Hn. pose proof Hn as Hn'. unfold normalized in Hn'.
  apply andb_prop in Hn'. destruct Hn' as [Hin _].
  pose proof (rewire_inBounds f Hnd Hrej Hin) as H.
  destruct (rewire g f) as [r|e]; [eauto|].
  destruct H as [_ H]. congruence.
Qed.

End RewireTotal.

(* ------------------------------------------------------------------------- *)
(** ** Execution of the emitted code *)
(* ------------------------------------------------------------------------- *)

Section Arith32.

Import Sem.

Lemma wrap32_is_u32 (x : Z) : is_u32 (wrap32 x).
Proof. unfold is_u32, wrap32. apply Z.mod_pos_bound. lia. Qed.

Lemma wrap32_u32 (x : Z) : is_u32 x -> wrap32 x = x.
Proof. unfold is_u32, wrap32. intros H. now apply Z.mod_small. Qed.

Lemma wrap32_lxor (a b : Z) :
  wrap32 (Z.lxor a b) = Z.lxor (wrap32 a) (wrap32 b).
Proof.
  unfold wrap32. apply Z.bits_inj'. intros n Hn.
  rewrite Z.lxor_spec.
  destruct (Z.lt_ge_cases n 32) as [H|H].
  - rewrite !Z.mod_pow2_bits_low by lia. apply Z.lxor_spec.
  - rewrite !Z.mod_pow2_bits_high by lia. reflexivity.
Qed.

Lemma lxor_u32 (a b : Z) : is_u32 a -> is_u32 b -> is_u32 (Z.lxor a b).
Proof.
  intros Ha Hb. rewrite <- (wrap32_u32 a Ha), <- (wrap32_u32 b Hb), <- wrap32_lxor.
  apply wrap32_is_u32.
Qed.

Lemma land_UINT32_MAX (x : Z) : is_u32 x -> Z.land UINT32_MAX x = x.
Proof.
  intros H. rewrite Z.land_comm. change UINT32_MAX with (Z.ones 32).
  rewrite Z.land_ones by lia. now apply Z.mod_small.
Qed.

Lemma lxor_cancel (a b : Z) : Z.lxor (Z.lxor a b) a = b.
Proof.
  rewrite (Z.lxor_comm a b), Z.lxor_assoc, Z.lxor_nilpotent. apply Z.lxor_0_r.
Qed.

(** The value that the emitted instructions compute from the condition bit
    [x] and the loaded state [loaded]. *)
Lemma nextState_true (lb lf lt : Z) :
  is_u32 lb -> is_u32 lf -> is_u32 lt ->
  Z.lxor (Z.land (sext 1) (wrap32 (Z.lxor lt lf)))
         (Z.lxor (wrap32 (Z.lxor lb lf)) lb) = lt.
Proof.
  intros Hb Hf Ht.
  rewrite !wrap32_u32 by now apply lxor_u32.
  change (sext 1) with UINT32_MAX.
  rewrite land_UINT32_MAX by now apply lxor_u32.
  rewrite lxor_cancel. rewrite (Z.lxor_comm lt lf), (Z.lxor_comm (Z.lxor lf lt) lf).
  rewrite <- Z.lxor_assoc, Z.lxor_nilpotent. apply Z.lxor_0_l.
Qed.

Lemma nextState_false (lb lf k : Z) :
  is_u32 lb -> is_u32 lf ->
  Z.lxor (Z.land (sext 0) k) (Z.lxor (wrap32 (Z.lxor lb lf)) lb) = lf.
Proof.
  intros Hb Hf. change (sext 0) with 0%Z. rewrite Z.land_0_l, Z.lxor_0_l.
  rewrite wrap32_u32 by now apply lxor_u32. apply lxor_cancel.
Qed.

Lemma drawLabels_u32 (g : mt19937) (origBB : list nat) (k : nat) (l : Z) :
  nth_error (drawLabels g origBB) k = Some l -> is_u32 l.
Proof.
  unfold drawLabels. intros H. apply nth_error_In, in_map_iff in H.
  destruct H as (x & <- & _). apply wrap32_is_u32.
Qed.

End Arith32.

Section Execution.

Import Sem.

Lemma reg_eq_dec_refl (A : Type) (r : reg) (x y : A) :
  (if reg_eq_dec r r then x else y) = x.
Proof. destruct (reg_eq_dec r r); [reflexivity | congruence]. Qed.

Lemma reg_eq_dec_neq (A : Type) (r r' : reg) (x y : A) :
  r <> r' -> (if reg_eq_dec r r' then x else y) = y.
Proof. intros H. destruct (reg_eq_dec r r'); [contradiction | reflexivity]. Qed.

Lemma regs_setReg (r : reg) (x : Z) (s : state) (r' : reg) :
  regs (setReg r x s) r' = if reg_eq_dec r' r then Some x else regs s r'.
Proof. reflexivity. Qed.

Lemma mem_setReg (r : reg) (x : Z) (s : state) : mem (setReg r x s) = mem s.
Proof. reflexivity. Qed.

Ltac step_regs :=
  repeat (progress cbn [execInsts execInstr evalValue evalBinop execTerm]
          || rewrite regs_setReg || rewrite mem_setReg
          || rewrite reg_eq_dec_refl
          || rewrite reg_eq_dec_neq by discriminate).

Lemma setCell_lt (a : nat) (x : Z) (m : list Z) :
  a < length m ->
  exists m', setCell a x m = Some m' /\ nth_error m' a = Some x /\
             length m' = length m.
Proof.
  revert a. induction m as [|y m IH]; intros a H; simpl in H; [lia|].
  destruct a as [|a]; simpl.
  - eexists. repeat split.
  - destruct (IH a) as (m' & E & Hn & Hl); [lia|]. rewrite E. simpl.
    exists (y :: m'). repeat split; [exact Hn | simpl; now rewrite Hl].
Qed.

(** Execution of the next-state code: [finalVal] gets the value of the
    formula, and memory is not touched. *)
Lemma exec_nextStateCode (i : nat) (c : value) (lb lf lt : Z) (s : state)
    (x loaded : Z) :
  evalValue s c = Some x ->
  regs s load = Some loaded ->
  exists s',
    execInsts s (nextStateCode i c lb lf lt) = Some s' /\
    regs s' (finalVal i) =
      Some (Z.lxor (Z.land (sext x) (wrap32 (Z.lxor lt lf)))
                   (Z.lxor (wrap32 (Z.lxor lb lf)) loaded)) /\
    regs s' switchVar = regs s switchVar /\
    mem s' = mem s.
Proof.
  intros Hc Hl. unfold nextStateCode.
  step_regs. rewrite Hc. step_regs. rewrite Hl. step_regs.
  eexists. split; [reflexivity|]. step_regs. repeat split; reflexivity.
Qed.

Lemma execInsts_app (s : state) (l l' : list instr) :
  execInsts s (l ++ l') =
  match execInsts s l with
  | Some s' => execInsts s' l'
  | None => None
  end.
Proof.
  revert s. induction l as [|i l IH]; intros s; simpl; [reflexivity|].
  destruct (execInstr s i); [apply IH | reflexivity].
Qed.

(** ... and with the store: the state variable receives that value. *)
Lemma exec_updateStateCode (i : nat) (c : value) (lb lf lt : Z) (s : state)
    (x loaded a : Z) :
  evalValue s c = Some x ->
  regs s load = Some loaded ->
  regs s switchVar = Some a ->
  Z.to_nat a < length (mem s) ->
  exists s',
    execInsts s (updateStateCode i c lb lf lt) = Some s' /\
    setCell (Z.to_nat a)
      (Z.lxor (Z.land (sext x) (wrap32 (Z.lxor lt lf)))
              (Z.lxor (wrap32 (Z.lxor lb lf)) loaded)) (mem s) = Some (mem s').
Proof.
  intros Hc Hl Ha Hlt.
  destruct (exec_nextStateCode i c lb lf lt s x loaded Hc Hl)
    as (s1 & E1 & Hv & Hsv & Hm).
  destruct (setCell_lt (Z.to_nat a)
              (Z.lxor (Z.land (sext x) (wrap32 (Z.lxor lt lf)))
                      (Z.lxor (wrap32 (Z.lxor lb lf)) loaded)) (mem s) Hlt)
    as (m' & Em & _ & _).
  unfold updateStateCode. rewrite execInsts_app, E1.
  cbn [execInsts execInstr evalValue]. rewrite Hv, Hsv, Ha, Hm, Em.
  eexists. split; reflexivity.
Qed.

Lemma switchDest_default (x : Z) (cases : list (Z * nat)) (d : nat) :
  (forall k dest, In (k, dest) cases -> k <> x) -> switchDest x cases d = d.
Proof.
  induction cases as [|[k dest] cases IH]; intros H; simpl; [reflexivity|].
  destruct (Z.eqb_spec k x) as [E|E].
  - exfalso. apply (H k dest); [now left | exact E].
  - apply IH. intros k' d' Hin. apply (H k' d'). now right.
Qed.

(** A loop header whose switch has no case for the value of the state
    variable is entered again and again. *)
Lemma loopEntry_spins (f : Function) (loopEntry : nat) (cases : list (Z * nat)) (x : Z) :
  getBlock f loopEntry =
    Some (mkBB loopEntry [LoadInst load (Reg switchVar)]
            (Switch (Reg load) loopEntry cases)) ->
  (forall k dest, In (k, dest) cases -> k <> x) ->
  forall (fuel : nat) (s : state) (a : Z),
    regs s switchVar = Some a ->
    nth_error (mem s) (Z.to_nat a) = Some x ->
    run fuel f s loopEntry = OutOfFuel.
Proof.
  intros Hblk Hx. induction fuel as [|fuel IH]; intros s a Ha Hm; simpl; [reflexivity|].
  rewrite Hblk. cbn [bbInsts bbTerm]. step_regs. rewrite Ha, Hm. step_regs.
  rewrite (switchDest_default _ _ _ Hx).
  apply (IH _ a); step_regs; assumption.
Qed.

Lemma switchDest_case (x : Z) (cases : list (Z * nat)) (d : nat) :
  switchDest x cases d = d \/ In (x, switchDest x cases d) cases.
Proof.
  induction cases as [|[k dest] cases IH]; simpl; [now left|].
  destruct (Z.eqb_spec k x) as [E|E].
  - subst. right. now left.
  - destruct IH as [IH|IH]; [now left | right; now right].
Qed.

End Execution.

Lemma origBBOf_NoDup (f : Function) :
  NoDup (ids f) -> rejected f = false -> NoDup (origBBOf f).
Proof.
  intros Hnd Hrej. destruct (rejected_false _ Hrej) as (insert & b0 & rest & ->).
  destruct (afterSplit_shape insert (b0 :: rest)) as (e & rest' & Hs & _ & Hids).
  pose proof (afterSplit_NoDup _ _ Hnd) as H. rewrite Hs in H. simpl in H.
  rewrite Hids in H. now inversion H.
Qed.

(** The switch of the loop header sends control to a dispatched block only
    when the loaded state is the label of that block. *)
Lemma dispatch_loads_own_label (g : mt19937) (f : Function) (x : Z) (i : nat) :
  NoDup (ids f) -> rejected f = false ->
  Sem.switchDest x (casesOf (origBBOf f) (bbIndexOf g f) (bbSeqOf g f))
    (loopEntryOf f) = i ->
  i <> loopEntryOf f ->
  In i (origBBOf f) /\ labelOf g f i = x.
Proof.
  intros Hnd Hrej Hd Hi.
  destruct (switchDest_case x (casesOf (origBBOf f) (bbIndexOf g f) (bbSeqOf g f))
              (loopEntryOf f)) as [E|E]; [congruence|].
  rewrite Hd in E. unfold casesOf in E. apply in_map_iff in E.
  destruct E as (b & E & Hb). injection E as Ex Ei.
  apply bbSeqOf_In in Hb.
  assert (Hn : nth_error (origBBOf f) b = Some i).
  { rewrite <- Ei. now apply nth_error_nth'. }
  split; [exact (nth_error_In _ _ Hn)|].
  unfold labelOf.
  rewrite (find_index_NoDup _ _ _ (origBBOf_NoDup f Hnd Hrej) Hn). exact Ex.
Qed.

(* ------------------------------------------------------------------------- *)
(** ** The pass as a whole *)
(* ------------------------------------------------------------------------- *)

Section Flatten.

Variable fixStack : Function -> Function.
Variable g : mt19937.

Lemma flatten_true (f f' : Function) :
  flatten fixStack g f = Ok (true, f') ->
  rejected f = false /\ exists r, rewire g f = Ok r /\ f' = fixStack r.
Proof.
  rewrite flatten_unfold. destruct (rejected f); [discriminate|].
  destruct (rewire g f) as [r|]; simpl; [|discriminate].
  intros H. inversion H. eauto.
Qed.

Lemma flatten_false (f f' : Function) :
  flatten fixStack g f = Ok (false, f') -> rejected f = true /\ f' = f.
Proof.
  rewrite flatten_unfold. destruct (rejected f).
  - intros H. now inversion H.
  - destruct (rewire g f); simpl; discriminate.
Qed.

End Flatten.

Lemma afterSplit_ids_incl (f : Function) (i : nat) :
  In i (ids f) -> In i (ids (afterSplit f)).
Proof.
  destruct f as [|insert rest]; [intros []|].
  unfold afterSplit. change (tl (ids (insert :: rest))) with (ids rest).
  destruct (splitsEntry (bbTerm insert)) eqn:H.
  - rewrite (splitEntry_split _ _ H). simpl. intuition.
  - now rewrite (splitEntry_keep _ _ H).
Qed.

Lemma rewire_changes (g : mt19937) (f r : Function) :
  NoDup (ids f) -> rejected f = false -> rewire g f = Ok r -> r <> f.
Proof.
  intros Hnd Hrej Hr E. subst r.
  destruct (rewire_spec g f f Hnd Hrej Hr) as (_ & HL & _).
  assert (In (loopEntryOf f) (ids f)) by (apply getBlock_In; congruence).
  apply (fresh_not_In (afterSplit f)). now apply afterSplit_ids_incl.
Qed.

(** The input contract, and what it gives. *)
Lemma contractForm_branches (blk : BasicBlock) :
  contractForm (bbTerm blk) = true ->
  atMostTwoSuccessors blk = true /\ twoWayIsBranch blk = true.
Proof.
  unfold atMostTwoSuccessors, twoWayIsBranch.
  destruct (bbTerm blk); simpl; intros H; try discriminate; now split.
Qed.

Lemma successorsIn_cons (x : nat) (origBB : list nat) (blk : BasicBlock) :
  successorsIn origBB blk = true -> successorsIn (x :: origBB) blk = true.
Proof.
  unfold successorsIn. rewrite !forallb_forall. intros H s Hs.
  simpl. rewrite (H s Hs). apply orb_true_r.
Qed.

(** A procedure within the input contract is [normalized]. *)
Lemma inputContract_normalized (f : Function) :
  inputContract f = true -> normalized f = true.
Proof.
  destruct f as [|insert rest]; [reflexivity|].
  unfold inputContract. change (tl (ids (insert :: rest))) with (ids rest).
  intros H. rewrite forallb_forall in H.
  assert (Hall : forall origBB blks,
             (forall blk, In blk blks ->
                contractForm (bbTerm blk) = true /\ successorsIn origBB blk = true) ->
             forallb (fun blk => atMostTwoSuccessors blk && successorsIn origBB blk) blks
             && forallb twoWayIsBranch blks = true).
  { intros origBB blks Hb. apply andb_true_iff. split; apply forallb_forall;
      intros blk Hin; destruct (Hb blk Hin) as [Hc Hs];
      destruct (contractForm_branches blk Hc) as [H2 Hw]; [now rewrite H2, Hs | exact Hw]. }
  unfold normalized, inBounds, dispatchedBlocks, afterSplit, origBBOf.
  change (tl (ids (insert :: rest))) with (ids rest).
  destruct (splitsEntry (bbTerm insert)) eqn:Hsp.
  - rewrite (splitEntry_split _ _ Hsp). cbn [fst snd tl].
    apply Hall. intros blk [E|Hin].
    + subst blk. cbn [bbTerm].
      specialize (H insert (or_introl eq_refl)). apply andb_true_iff in H.
      destruct H as [Hc Hs]. split; [exact Hc|].
      apply successorsIn_cons. exact Hs.
    + specialize (H blk (or_intror Hin)). apply andb_true_iff in H.
      destruct H as [Hc Hs]. split; [exact Hc|]. now apply successorsIn_cons.
  - rewrite (splitEntry_keep _ _ Hsp). cbn [fst snd tl].
    apply Hall. intros blk Hin.
    specialize (H blk (or_intror Hin)). apply andb_true_iff in H. exact H.
Qed.

(** C3.  The pass returns false, with the procedure as it was, exactly
    when a block ends in an invoke or there is at most one block
    ([rejected]).  In every other case, on a procedure within the input
    contract (its dispatched blocks end in a terminator without successor,
    with one successor, or in a conditional branch, and branch to
    dispatched blocks only: [normalized], which [inputContract] implies)
    and whose blocks are distinct objects, it rewires the procedure into a
    different one, hands it to the repair step and returns true. *)
Theorem flatten_verdict :
  forall (fixStack : Function -> Function) (g : mt19937) (f : Function),
    (rejected f = true -> flatten fixStack g f = Ok (false, f)) /\
    (forall f', flatten fixStack g f = Ok (false, f') -> rejected f = true /\ f' = f) /\
    (rejected f = false -> NoDup (ids f) -> normalized f = true ->
     exists r, rewire g f = Ok r /\ r <> f /\
               flatten fixStack g f = Ok (true, fixStack r)).
Proof.
  intros fixStack g f. split; [|split].
  - intros H. rewrite flatten_unfold. now rewrite H.
  - apply flatten_false.
  - intros Hrej Hnd Hn. destruct (rewire_total g f Hnd Hrej Hn) as [r Hr].
    exists r. split; [exact Hr|]. split.
    + now apply (rewire_changes g f r).
    + rewrite flatten_unfold, Hrej, Hr. reflexivity.
Qed.

Lemma NoDup_diamond : NoDup (ids diamond).
Proof. repeat constructor; simpl; lia. Defined.

Lemma diamond_in_contract : inputContract diamond = true.
Proof. reflexivity. Qed.

Lemma flatten_verdict_witness :
  rejected diamond = false /\ NoDup (ids diamond) /\ normalized diamond = true /\
  exists r, rewire gen_reversing diamond = Ok r /\ r <> diamond /\
            flatten (fun f => f) gen_reversing diamond = Ok (true, r).
Proof.
  split; [reflexivity|]. split; [exact NoDup_diamond|]. split; [reflexivity|].
  apply (proj2 (proj2 (flatten_verdict (fun f => f) gen_reversing diamond))).
  - reflexivity.
  - exact NoDup_diamond.
  - reflexivity.
Defined.

(** Outside the input contract the pass need not return: after the entry,
    a block ends in a computed goto with three destinations; the procedure
    passes the validation and the pass stops on the assertion of line 175. *)
Lemma flatten_three_way_aborts :
  rejected three_way = false /\
  flatten (fun f => f) gen_reversing three_way = Fail AssertNumSuccessors.
Proof. split; reflexivity. Qed.

(** C10, as amended.  On a procedure that passes the validation, whose
    blocks are distinct objects, and in which every dispatched block (the
    block split off the entry included) ends in a terminator with at most
    two successors, all of them dispatched blocks, neither the
    two-successor assertion nor a read of [bbIndex] or [origBB] fails: the
    pass returns true, unless it stops on the cast of a two-successor
    terminator that is not a branch. *)
Theorem rewriting_loop_in_bounds :
  forall (fixStack : Function -> Function) (g : mt19937) (f : Function),
    NoDup (ids f) -> rejected f = false -> inBounds f = true ->
    (exists r, flatten fixStack g f = Ok (true, fixStack r)) \/
    (flatten fixStack g f = Fail BadCast /\ normalized f = false).
Proof.
  intros fixStack g f Hnd Hrej Hin. rewrite flatten_unfold, Hrej.
  pose proof (rewire_inBounds g f Hnd Hrej Hin) as H.
  destruct (rewire g f) as [r|e]; simpl.
  - left. now exists r.
  - right. destruct H as [-> H]. now split.
Qed.

Lemma rewriting_loop_in_bounds_witness :
  (exists r, flatten (fun f => f) gen_reversing diamond = Ok (true, r)) \/
  (flatten (fun f => f) gen_reversing diamond = Fail BadCast /\
   normalized diamond = false).
Proof.
  apply (rewriting_loop_in_bounds (fun f => f) gen_reversing diamond).
  - exact NoDup_diamond.
  - reflexivity.
  - reflexivity.
Defined.

(** C10, counterexample.  Every block but the entry ends in a return, the
    entry in a computed goto with three destinations, all of them
    dispatched; the entry is split, its terminator lands in a dispatched
    block, and the assertion fails there. *)
Lemma three_way_entry_assertion :
  rejected three_way_entry = false /\
  forallb atMostTwoSuccessors (tl three_way_entry) = true /\
  forallb (successorsIn (origBBOf three_way_entry))
    (dispatchedBlocks three_way_entry) = true /\
  flatten (fun f => f) gen_reversing three_way_entry = Fail AssertNumSuccessors.
Proof. repeat split; reflexivity. Qed.

(** C9.  In the procedure that the pass hands to the repair step (the
    blocks of the input being distinct objects), the entry block is its
    instructions after the split, followed by the allocation of the state
    variable and by the store of the label of the first dispatched block
    into it, and it ends in the jump to the loop header, which has taken
    the place of its terminator. *)
Theorem entry_initializes_state :
  forall (fixStack : Function -> Function) (g : mt19937) (f f' : Function),
    NoDup (ids f) ->
    flatten fixStack g f = Ok (true, f') ->
    exists r e rest,
      f' = fixStack r /\
      afterSplit f = e :: rest /\
      getBlock r (insertOf f) =
        Some (mkBB (insertOf f)
                (bbInsts e ++
                   [AllocaInst switchVar;
                    StoreInst (ConstI32 (labelOf g f (hd 0 (origBBOf f))))
                      (Reg switchVar)])
                (Br (loopEntryOf f))).
Proof.
  intros fixStack g f f' Hnd Hf.
  destruct (flatten_true fixStack g f f' Hf) as (Hrej & r & Hr & ->).
  destruct (rewire_spec g f r Hnd Hrej Hr) as ((e & rest & Hs & He) & _).
  exists r, e, rest. repeat split; [exact Hs|].
  rewrite He. repeat f_equal. unfold labelOf.
  destruct (rejected_false _ Hrej) as (insert & b0 & rest0 & ->).
  pose proof (origBBOf_length insert b0 rest0) as Hlen.
  destruct (origBBOf (insert :: b0 :: rest0)) as [|i l]; [simpl in Hlen; lia|].
  simpl. now rewrite Nat.eqb_refl.
Qed.

Lemma entry_initializes_state_witness :
  exists r e rest,
    diamond_flat = r /\
    afterSplit diamond = e :: rest /\
    getBlock r (insertOf diamond) =
      Some (mkBB (insertOf diamond)
              (bbInsts e ++
                 [AllocaInst switchVar;
                  StoreInst (ConstI32 (labelOf gen_reversing diamond
                                         (hd 0 (origBBOf diamond))))
                    (Reg switchVar)])
              (Br (loopEntryOf diamond))).
Proof.
  apply (entry_initializes_state (fun f => f) gen_reversing diamond diamond_flat).
  - exact NoDup_diamond.
  - reflexivity.
Defined.

(** C8.  The loop header of the procedure handed to the repair step loads
    the state variable and switches on it with itself as default
    destination; when the state variable holds a value that is no case
    key, the switch goes to the loop header, and execution from the loop
    header never leaves it. *)
Theorem default_is_loop_header :
  forall (fixStack : Function -> Function) (g : mt19937) (f f' : Function),
    flatten fixStack g f = Ok (true, f') ->
    exists r cases,
      f' = fixStack r /\
      getBlock r (loopEntryOf f) =
        Some (mkBB (loopEntryOf f) [LoadInst load (Reg switchVar)]
                (Switch (Reg load) (loopEntryOf f) cases)) /\
      forall x, (forall k dest, In (k, dest) cases -> k <> x) ->
        Sem.switchDest x cases (loopEntryOf f) = loopEntryOf f /\
        forall (fuel : nat) (s : Sem.state) (a : Z),
          Sem.regs s switchVar = Some a ->
          nth_error (Sem.mem s) (Z.to_nat a) = Some x ->
          Sem.run fuel r s (loopEntryOf f) = Sem.OutOfFuel.
Proof.
  intros fixStack g f f' Hf.
  destruct (flatten_true fixStack g f f' Hf) as (Hrej & r & Hr & ->).
  pose proof (rewire_loopEntry g f r Hrej Hr) as HL.
  exists r, (casesOf (origBBOf f) (bbIndexOf g f) (bbSeqOf g f)).
  repeat split; [exact HL | |].
  - now apply switchDest_default.
  - now apply (loopEntry_spins r (loopEntryOf f) _ x HL).
Qed.

Lemma default_is_loop_header_witness :
  exists r cases,
    diamond_flat = r /\
    getBlock r (loopEntryOf diamond) =
      Some (mkBB (loopEntryOf diamond) [LoadInst load (Reg switchVar)]
              (Switch (Reg load) (loopEntryOf diamond) cases)) /\
    forall x, (forall k dest, In (k, dest) cases -> k <> x) ->
      Sem.switchDest x cases (loopEntryOf diamond) = loopEntryOf diamond /\
      forall (fuel : nat) (s : Sem.state) (a : Z),
        Sem.regs s switchVar = Some a ->
        nth_error (Sem.mem s) (Z.to_nat a) = Some x ->
        Sem.run fuel r s (loopEntryOf diamond) = Sem.OutOfFuel.
Proof.
  apply (default_is_loop_header (fun f => f) gen_reversing diamond diamond_flat).
  reflexivity.
Defined.

(** C1.  Let the condition [c] evaluate to the bit [bit], let [trueLabel],
    [falseLabel] and [currLabel] be 32-bit labels, and let the loaded state
    be [currLabel].  The instructions emitted for a conditional branch
    finish, and the next state they compute,
    (sext(c) AND (trueLabel XOR falseLabel)) XOR
    ((currLabel XOR falseLabel) XOR loaded state), is [trueLabel] when
    the bit is set and [falseLabel] when it is not. *)
Theorem nextState_selects_successor :
  forall (i : nat) (c : value) (bit : bool) (trueLabel falseLabel currLabel : Z)
         (s : Sem.state),
    is_u32 trueLabel -> is_u32 falseLabel -> is_u32 currLabel ->
    Sem.evalValue s c = Some (if bit then 1 else 0)%Z ->
    Sem.regs s load = Some currLabel ->
    exists s',
      Sem.execInsts s (nextStateCode i c currLabel falseLabel trueLabel) = Some s' /\
      Sem.regs s' (finalVal i) =
        Some (Z.lxor (Z.land (Sem.sext (if bit then 1 else 0))
                        (Z.lxor trueLabel falseLabel))
                (Z.lxor (Z.lxor currLabel falseLabel) currLabel)) /\
      Sem.regs s' (finalVal i) = Some (if bit then trueLabel else falseLabel).
Proof.
  intros i c bit trueLabel falseLabel currLabel s Ht Hf Hc Hbit Hload.
  destruct (exec_nextStateCode i c currLabel falseLabel trueLabel s _ _ Hbit Hload)
    as (s' & Hexec & Hval & _).
  rewrite !wrap32_u32 in Hval by now apply lxor_u32.
  exists s'. split; [exact Hexec|]. split; [exact Hval|].
  rewrite Hval. f_equal.
  rewrite <- (wrap32_u32 (Z.lxor trueLabel falseLabel)) by now apply lxor_u32.
  rewrite <- (wrap32_u32 (Z.lxor currLabel falseLabel)) at 1 by now apply lxor_u32.
  destruct bit.
  - now apply nextState_true.
  - now apply nextState_false.
Qed.

Lemma is_u32_small (x : Z) : (0 <=? x)%Z && (x <? 2 ^ 32)%Z = true -> is_u32 x.
Proof. unfold is_u32. intros H. apply andb_prop in H. lia. Defined.

Lemma nextState_selects_successor_witness :
  exists s',
    Sem.execInsts (dispatching 11) (nextStateCode 1 (Reg (OrigReg 0)) 11 13 12) = Some s' /\
    Sem.regs s' (finalVal 1) =
      Some (Z.lxor (Z.land (Sem.sext 1) (Z.lxor 12 13)) (Z.lxor (Z.lxor 11 13) 11)) /\
    Sem.regs s' (finalVal 1) = Some 12%Z.
Proof.
  apply (nextState_selects_successor 1 (Reg (OrigReg 0)) true 12 13 11 (dispatching 11)).
  - apply is_u32_small. reflexivity.
  - apply is_u32_small. reflexivity.
  - apply is_u32_small. reflexivity.
  - reflexivity.
  - reflexivity.
Defined.

(** The same at the level of [rewriteBlock]: the code emitted for a block
    that ends in a conditional branch stores the label of the successor
    that the condition selects. *)
Lemma branch_stores_successor_label
    (g : mt19937) (loopEntry : nat) (origBB bbSeq : list nat) (b : nat)
    (blk blk' : BasicBlock) (c : value) (t e : nat) (bit : bool) (lb : Z)
    (s : Sem.state) (a : Z) :
  bbTerm blk = CondBr c t e ->
  rewriteBlock loopEntry origBB (drawLabels g origBB) bbSeq b blk = Ok blk' ->
  nth_error (drawLabels g origBB) b = Some lb ->
  Sem.evalValue s c = Some (if bit then 1 else 0)%Z ->
  Sem.regs s load = Some lb ->
  Sem.regs s switchVar = Some a ->
  Z.to_nat a < length (Sem.mem s) ->
  exists lt lf code s',
    nth_error (drawLabels g origBB) (find_index t origBB) = Some lt /\
    nth_error (drawLabels g origBB) (find_index e origBB) = Some lf /\
    blk' = mkBB (bbId blk) (bbInsts blk ++ code) (Br loopEntry) /\
    Sem.execInsts s code = Some s' /\
    Sem.setCell (Z.to_nat a) (if bit then lt else lf) (Sem.mem s) = Some (Sem.mem s').
Proof.
  intros Ht Hrw Hlb Hc Hload Hsv Ha.
  destruct (rewriteBlock_branch loopEntry origBB _ bbSeq b blk blk' c t e Ht Hrw)
    as (lb' & lf & lt & Hb' & Hf & Hlt & ->).
  assert (lb' = lb) by congruence. subst lb'.
  destruct (exec_updateStateCode (bbId blk) c lb lf lt s _ lb a Hc Hload Hsv Ha)
    as (s' & Hexec & Hmem).
  exists lt, lf, (updateStateCode (bbId blk) c lb lf lt), s'.
  repeat split; [exact Hlt | exact Hf | exact Hexec |].
  pose proof (drawLabels_u32 _ _ _ _ Hlb) as Ub.
  pose proof (drawLabels_u32 _ _ _ _ Hf) as Uf.
  pose proof (drawLabels_u32 _ _ _ _ Hlt) as Ut.
  destruct bit.
  - now rewrite nextState_true in Hmem.
  - now rewrite nextState_false in Hmem.
Qed.

(** C6.  Let a dispatched block end in an unconditional branch to [target]
    and be rewritten with the labels drawn by the pass, for whatever order
    [bbSeq] and hence whatever position is read for the true successor.
    When the block runs with its own label as loaded state, the emitted
    instructions finish and leave memory exactly as the direct store of
    the label of [target] into the state variable does. *)
Theorem jump_stores_target_label :
  forall (g : mt19937) (loopEntry : nat) (origBB bbSeq : list nat)
         (b : nat) (blk blk' : BasicBlock) (target : nat) (lb : Z)
         (s : Sem.state) (a : Z),
    bbTerm blk = Br target ->
    rewriteBlock loopEntry origBB (drawLabels g origBB) bbSeq b blk = Ok blk' ->
    nth_error (drawLabels g origBB) b = Some lb ->
    Sem.regs s load = Some lb ->
    Sem.regs s switchVar = Some a ->
    Z.to_nat a < length (Sem.mem s) ->
    exists ltarget code s',
      nth_error (drawLabels g origBB) (find_index target origBB) = Some ltarget /\
      blk' = mkBB (bbId blk) (bbInsts blk ++ code) (Br loopEntry) /\
      Sem.execInsts s code = Some s' /\
      option_map Sem.mem
        (Sem.execInstr s (StoreInst (ConstI32 ltarget) (Reg switchVar)))
      = Some (Sem.mem s').
Proof.
  intros g loopEntry origBB bbSeq b blk blk' target lb s a
         Ht Hrw Hlb Hload Hsv Ha.
  assert (H1 : getNumSuccessors (bbTerm blk) = 1) by now rewrite Ht.
  destruct (rewriteBlock_jump loopEntry origBB _ bbSeq b blk blk' H1 Hrw)
    as (lb' & lf & lt & Hb' & Hf & Hlt & ->).
  rewrite Ht in Hf. change (getSuccessor (Br target) 0) with target in Hf.
  assert (lb' = lb) by congruence. subst lb'.
  destruct (exec_updateStateCode (bbId blk) (ConstI1 false) lb lf lt s 0 lb a
              eq_refl Hload Hsv Ha) as (s' & Hexec & Hmem).
  exists lf, (updateStateCode (bbId blk) (ConstI1 false) lb lf lt), s'.
  repeat split; [exact Hf | exact Hexec |].
  pose proof (drawLabels_u32 _ _ _ _ Hlb) as Ub.
  pose proof (drawLabels_u32 _ _ _ _ Hf) as Uf.
  rewrite nextState_false in Hmem by assumption.
  cbn [Sem.execInstr Sem.evalValue]. rewrite Hsv.
  rewrite wrap32_u32 by assumption. now rewrite Hmem.
Qed.

Lemma jump_stores_target_label_witness :
  exists ltarget code s',
    nth_error (drawLabels gen_reversing [1; 2; 3; 4]) (find_index 4 [1; 2; 3; 4])
      = Some ltarget /\
    mkBB 2 ([] ++ updateStateCode 2 (ConstI1 false) 11 13 12) (Br 5) =
    mkBB 2 ([] ++ code) (Br 5) /\
    Sem.execInsts (dispatching 11) code = Some s' /\
    option_map Sem.mem
      (Sem.execInstr (dispatching 11) (StoreInst (ConstI32 ltarget) (Reg switchVar)))
    = Some (Sem.mem s').
Proof.
  apply (jump_stores_target_label gen_reversing 5 [1; 2; 3; 4] [3; 2; 1; 0]
           1 (mkBB 2 [] (Br 4)) _ 4 11%Z (dispatching 11) 0%Z).
  - reflexivity.
  - reflexivity.
  - reflexivity.
  - reflexivity.
  - reflexivity.
  - simpl. lia.
Defined.

(** C7, as amended.  When the entry block of an accepted procedure ends in
    a terminator with more than one successor, it is split: the terminator
    and, whenever the block has another instruction, the instruction just
    before it (whatever it is) move to a new block placed right after the
    entry; the new block is the first of the dispatched blocks, and the
    entry is not dispatched. *)
Theorem entry_split_moves_tail :
  forall (insert : BasicBlock) (rest : Function),
    NoDup (ids (insert :: rest)) ->
    rejected (insert :: rest) = false ->
    1 < getNumSuccessors (bbTerm insert) ->
    exists kept moved,
      bbInsts insert = kept ++ moved /\
      length moved = (if 1 <? size insert then 1 else 0) /\
      afterSplit (insert :: rest) =
        mkBB (bbId insert) kept (Br (fresh (insert :: rest)))
          :: mkBB (fresh (insert :: rest)) moved (bbTerm insert)
          :: rest /\
      origBBOf (insert :: rest) = fresh (insert :: rest) :: ids rest /\
      ~ In (bbId insert) (origBBOf (insert :: rest)).
Proof.
  intros insert rest Hnd _ Hsucc.
  assert (Hs : splitsEntry (bbTerm insert) = true).
  { rewrite splitsEntry_successors. now apply Nat.ltb_lt. }
  exists (firstn (length (bbInsts insert) - 1) (bbInsts insert)),
         (skipn (length (bbInsts insert) - 1) (bbInsts insert)).
  unfold afterSplit, origBBOf. change (tl (ids (insert :: rest))) with (ids rest).
  rewrite (splitEntry_split _ _ Hs). simpl fst. simpl snd.
  repeat split.
  - now rewrite firstn_skipn.
  - rewrite length_skipn. unfold size.
    destruct (Nat.ltb_spec 1 (length (bbInsts insert) + 1)); lia.
  - simpl in Hnd. inversion Hnd as [|? ? Hin _]; subst.
    intros [E|E]; [|contradiction].
    apply (fresh_not_In (insert :: rest)). rewrite E. now left.
Qed.

Lemma NoDup_branching_entry : NoDup (ids branching_entry).
Proof. repeat constructor; simpl; lia. Defined.

Lemma entry_split_moves_tail_witness :
  exists kept moved,
    [ICmpEq (OrigReg 1) (Reg (OrigReg 0)) (ConstI32 0);
     StoreInst (ConstI32 1) (Reg (OrigReg 2))] = kept ++ moved /\
    length moved = 1 /\
    afterSplit branching_entry =
      mkBB 0 kept (Br 3) :: mkBB 3 moved (CondBr (Reg (OrigReg 1)) 1 2)
        :: tl branching_entry /\
    origBBOf branching_entry = [3; 1; 2] /\
    ~ In 0 (origBBOf branching_entry).
Proof.
  apply (entry_split_moves_tail
           (mkBB 0 [ICmpEq (OrigReg 1) (Reg (OrigReg 0)) (ConstI32 0);
                    StoreInst (ConstI32 1) (Reg (OrigReg 2))]
              (CondBr (Reg (OrigReg 1)) 1 2))
           (tl branching_entry)).
  - exact NoDup_branching_entry.
  - reflexivity.
  - apply Nat.ltb_lt. reflexivity.
Defined.

(** C7, counterexample.  The entry compares, stores and branches on the
    comparison; the instruction that moves with the terminator is the
    store, which does not define the condition, and the comparison that
    defines it stays in the entry. *)
Lemma entry_split_moves_a_store :
  rejected branching_entry = false /\
  afterSplit branching_entry =
    [ mkBB 0 [ICmpEq (OrigReg 1) (Reg (OrigReg 0)) (ConstI32 0)] (Br 3);
      mkBB 3 [StoreInst (ConstI32 1) (Reg (OrigReg 2))]
        (CondBr (Reg (OrigReg 1)) 1 2);
      mkBB 1 [] (Ret (Some (ConstI32 1)));
      mkBB 2 [] (Ret (Some (ConstI32 2))) ] /\
  defines (StoreInst (ConstI32 1) (Reg (OrigReg 2))) (Reg (OrigReg 1)) = false /\
  defines (ICmpEq (OrigReg 1) (Reg (OrigReg 0)) (ConstI32 0)) (Reg (OrigReg 1)) = true.
Proof. repeat split; reflexivity. Qed.

(** C2, at a failing input.  The entry of [jump_over] jumps over the block
    that follows it, and the procedure returns 2.  Flattened, with labels
    that differ, it starts at the block that follows the entry and
    returns 1. *)
Theorem flattening_changes_jump_over :
  forall (fixStack : Function -> Function) (g : mt19937),
    randomBBIndex g 0 <> randomBBIndex g 1 ->
    exists r,
      flatten fixStack g jump_over = Ok (true, fixStack r) /\
      Sem.call 2 jump_over [] = Sem.Returned (Some 2%Z) /\
      Sem.call 3 r [] = Sem.Returned (Some 1%Z).
Proof.
  intros fixStack g Hneq.
  rewrite flatten_unfold. change (rejected jump_over) with false. cbv iota.
  assert (Hseq : std_shuffle g [0; 1] = [0; 1] \/ std_shuffle g [0; 1] = [1; 0]).
  { apply Permutation_length_2_inv, Permutation_sym, std_shuffle_perm. }
  assert (H0 : Sem.wrap32 (randomBBIndex g 0) = randomBBIndex g 0).
  { apply wrap32_u32, wrap32_is_u32. }
  remember (randomBBIndex g 0) as l0 eqn:E0.
  remember (randomBBIndex g 1) as l1 eqn:E1.
  assert (Hr : forall bbSeq, std_shuffle g [0; 1] = bbSeq ->
                 bbSeq = [0; 1] \/ bbSeq = [1; 0] ->
                 exists r, rewire g jump_over = Ok r /\
                           Sem.call 3 r [] = Sem.Returned (Some 1%Z)).
  { intros bbSeq Hs Hcases. unfold rewire. cbn [jump_over ids map tl bbId].
    change (splitEntry jump_over [1; 2]) with (jump_over, [1; 2]). cbv iota.
    change (drawLabels g [1; 2]) with [randomBBIndex g 0; randomBBIndex g 1].
    rewrite <- E0, <- E1. change (seq 0 (length [1; 2])) with [0; 1]. rewrite Hs.
    destruct Hcases as [-> | ->]; eexists; (split; [reflexivity|]).
    - unfold Sem.call. cbn. rewrite H0. cbn. now rewrite Z.eqb_refl.
    - unfold Sem.call. cbn. rewrite H0. cbn.
      destruct (Z.eqb_spec l1 l0) as [E|_]; [now elim Hneq|].
      now rewrite Z.eqb_refl. }
  destruct (Hr _ eq_refl Hseq) as (r & Hrw & Hcall).
  exists r. rewrite Hrw. repeat split. exact Hcall.
Qed.

Lemma flattening_changes_jump_over_witness :
  exists r,
    flatten (fun f => f) gen_reversing jump_over = Ok (true, r) /\
    Sem.call 2 jump_over [] = Sem.Returned (Some 2%Z) /\
    Sem.call 3 r [] = Sem.Returned (Some 1%Z).
Proof.
  apply (flattening_changes_jump_over (fun f => f) gen_reversing).
  vm_compute. discriminate.
Defined.

(* ------------------------------------------------------------------------- *)
(** ** The scenario of the specification *)
(* ------------------------------------------------------------------------- *)

(** On [diamond], with the labels 10, 11, 12, 13, the flattened procedure
    returns what the procedure returns, for both values of the condition:
    here the entry does jump to the block that follows it. *)
Example diamond_flat_agrees :
  Sem.call 4 diamond [1%Z] = Sem.Returned (Some 10%Z) /\
  Sem.call 8 diamond_flat [1%Z] = Sem.Returned (Some 10%Z) /\
  Sem.call 4 diamond [0%Z] = Sem.Returned (Some 20%Z) /\
  Sem.call 8 diamond_flat [0%Z] = Sem.Returned (Some 20%Z).
Proof. repeat split; reflexivity. Qed.

(* ------------------------------------------------------------------------- *)
(** ** The layout of the rewired procedure *)
(* ------------------------------------------------------------------------- *)

Section Layout.

Lemma ids_removeBlock (i : nat) (f : Function) :
  ids (removeBlock i f) = filter (fun x => negb (x =? i)) (ids f).
Proof.
  unfold ids, removeBlock. induction f as [|b f IH]; simpl; [reflexivity|].
  destruct (bbId b =? i); simpl; now rewrite IH.
Qed.

Lemma ids_insertBefore (pos : nat) (blk : BasicBlock) :
  forall (pre post : list nat) (f : Function),
    ids f = pre ++ pos :: post -> ~ In pos pre ->
    ids (insertBefore pos blk f) = pre ++ bbId blk :: pos :: post.
Proof.
  induction pre as [|x pre IH]; intros post f Hf Hpos;
    destruct f as [|b f]; simpl in Hf; try discriminate.
  - inversion Hf as [[Hb Hrest]]. simpl. rewrite Hb, Nat.eqb_refl. simpl.
    now rewrite Hb.
  - inversion Hf as [[Hb Hrest]]. simpl.
    destruct (Nat.eqb_spec (bbId b) pos) as [E|E].
    + exfalso. apply Hpos. left. congruence.
    + simpl. f_equal. apply IH; [exact Hrest|]. intros H. apply Hpos. now right.
Qed.

Lemma filter_absent (i : nat) (l : list nat) :
  ~ In i l -> filter (fun x => negb (x =? i)) l = l.
Proof.
  induction l as [|x l IH]; simpl; intros H; [reflexivity|].
  destruct (Nat.eqb_spec x i) as [E|E]; simpl.
  - exfalso. apply H. now left.
  - f_equal. apply IH. intros Hin. apply H. now right.
Qed.

(** [i->moveBefore(pos)] on the layout: [i] leaves its place and lands just
    before [pos]. *)
Lemma ids_moveBefore (i pos : nat) (pre post : list nat) (f : Function) :
  ids f = pre ++ pos :: post -> ~ In pos pre -> i <> pos ->
  In i (ids f) ->
  ids (moveBefore i pos f) =
  filter (fun x => negb (x =? i)) pre ++ i :: pos :: filter (fun x => negb (x =? i)) post.
Proof.
  intros Hf Hpos Hi Hin. unfold moveBefore.
  destruct (getBlock f i) as [blk|] eqn:Hblk.
  2:{ apply getBlock_In in Hin. contradiction. }
  rewrite <- (getBlock_id _ _ _ Hblk) at 2.
  apply ids_insertBefore.
  - rewrite ids_removeBlock, Hf, filter_app. simpl.
    destruct (Nat.eqb_spec pos i) as [E|E]; [congruence|]. reflexivity.
  - intros H. apply filter_In in H. now apply Hpos.
Qed.

Lemma notAmong_app (l : list nat) (i x : nat) :
  notAmong (l ++ [i]) x = notAmong l x && negb (x =? i).
Proof.
  unfold notAmong. rewrite existsb_app. simpl. rewrite orb_false_r.
  now rewrite negb_orb.
Qed.

Lemma filter_filter_notAmong (l origBB : list nat) (i : nat) :
  filter (fun x => negb (x =? i)) (filter (notAmong l) origBB) =
  filter (notAmong (l ++ [i])) origBB.
Proof.
  induction origBB as [|x origBB IH]; simpl; [reflexivity|].
  rewrite notAmong_app. destruct (notAmong l x); simpl; [|exact IH].
  destruct (negb (x =? i)); simpl; now rewrite IH.
Qed.

Lemma notAmong_In (l : list nat) (x : nat) :
  notAmong l x = true <-> ~ In x l.
Proof.
  unfold notAmong. rewrite negb_true_iff. split.
  - intros H Hin. assert (existsb (Nat.eqb x) l = true); [|congruence].
    apply existsb_exists. exists x. split; [exact Hin | apply Nat.eqb_refl].
  - intros H. destruct (existsb (Nat.eqb x) l) eqn:E; [|reflexivity].
    apply existsb_exists in E. destruct E as (y & Hy & E).
    apply Nat.eqb_eq in E. subst. contradiction.
Qed.

Lemma filter_none (p : nat -> bool) (l : list nat) :
  (forall x, In x l -> p x = false) -> filter p l = [].
Proof.
  induction l as [|x l IH]; simpl; intros H; [reflexivity|].
  rewrite (H x (or_introl eq_refl)). apply IH. intros y Hy. apply H. now right.
Qed.

Variables (loopEntry insert : nat) (origBB : list nat) (bbIndex : list Z).

Hypothesis origBB_NoDup : NoDup origBB.
Hypothesis loopEntry_new : ~ In loopEntry origBB.
Hypothesis insert_apart : ~ In insert origBB.
Hypothesis insert_loopEntry : insert <> loopEntry.

Lemma blockAt_inj (b b' : nat) :
  b < length origBB -> b' < length origBB ->
  blockAt origBB b = blockAt origBB b' -> b = b'.
Proof.
  intros Hb Hb' E. apply (proj1 (NoDup_nth origBB 0) origBB_NoDup); assumption.
Qed.

(** Lines 141-154 on the layout: the blocks moved so far sit between the
    entry and the loop header, in the order of their move; the others
    follow the loop header in their old order. *)
Lemma installCases_layout (todo : list nat) :
  forall (done : list nat) (f r : Function),
    installCases loopEntry origBB bbIndex todo f = Ok r ->
    NoDup (done ++ todo) ->
    (forall b, In b done -> b < length origBB) ->
    ids f = insert :: map (blockAt origBB) done
              ++ loopEntry :: filter (notAmong (map (blockAt origBB) done)) origBB ->
    ids r = insert :: map (blockAt origBB) (done ++ todo)
              ++ loopEntry
              :: filter (notAmong (map (blockAt origBB) (done ++ todo))) origBB.
Proof.
  induction todo as [|b todo IH]; intros done f r Hr Hnd Hdone Hf; simpl in Hr.
  - inversion Hr; subst. now rewrite app_nil_r.
  - destruct (at_ origBB b) as [i|] eqn:Hi; simpl in Hr; [|discriminate].
    destruct (at_ bbIndex b) as [numCase|] eqn:Hn; simpl in Hr; [|discriminate].
    apply at_Ok in Hi.
    assert (Hlt : b < length origBB) by (apply nth_error_Some; congruence).
    assert (Ei : i = blockAt origBB b).
    { unfold blockAt. symmetry. now apply nth_error_nth. }
    assert (Hio : In i origBB) by exact (nth_error_In _ _ Hi).
    assert (Hnew : ~ In i (map (blockAt origBB) done)).
    { intros H. apply in_map_iff in H. destruct H as (b' & E & Hb').
      rewrite Ei in E. apply blockAt_inj in E; [|now apply Hdone | exact Hlt].
      subst b'. apply NoDup_remove_2 in Hnd. apply Hnd, in_or_app. now left. }
    replace (done ++ b :: todo) with ((done ++ [b]) ++ todo)
      by now rewrite <- app_assoc.
    apply (IH (done ++ [b]) _ r Hr).
    + now rewrite <- app_assoc.
    + intros b' Hb'. apply in_app_or in Hb'. destruct Hb' as [Hb'|[<-|[]]];
        [now apply Hdone | exact Hlt].
    + unfold addCase. rewrite ids_updateBlock by (intros x Hx; now destruct (bbTerm x)).
      rewrite (ids_moveBefore i loopEntry
                 (insert :: map (blockAt origBB) done)
                 (filter (notAmong (map (blockAt origBB) done)) origBB) f Hf).
      * simpl. destruct (Nat.eqb_spec insert i) as [E|E].
        { exfalso. apply insert_apart. now rewrite E. }
        simpl. rewrite (filter_absent i _ Hnew), filter_filter_notAmong.
        rewrite map_app. simpl. rewrite <- Ei, <- app_assoc. reflexivity.
      * simpl. intros [E|E]; [now apply insert_loopEntry|].
        apply loopEntry_new. apply in_map_iff in E. destruct E as (b' & E & Hb').
        rewrite <- E. apply nth_In. now apply Hdone.
      * intros E. apply loopEntry_new. now rewrite <- E.
      * rewrite Hf. right. apply in_or_app. right. right.
        apply filter_In. split; [exact Hio | now apply notAmong_In].
Qed.

Variable bbSeq : list nat.

Lemma recalcSwitchVar_ids (todo : list nat) :
  forall f r,
    recalcSwitchVar loopEntry origBB bbIndex bbSeq todo f = Ok r -> ids r = ids f.
Proof.
  induction todo as [|b todo IH]; intros f r Hr; simpl in Hr.
  - now inversion Hr.
  - destruct (at_ origBB b) as [i|]; simpl in Hr; [|discriminate].
    destruct (getBlock f i) as [blk|] eqn:Hblk; [|discriminate].
    destruct (rewriteBlock loopEntry origBB bbIndex bbSeq b blk) as [blk'|] eqn:Hrw;
      simpl in Hr; [|discriminate].
    rewrite (IH _ _ Hr). apply ids_updateBlock.
    intros _ _. rewrite (rewriteBlock_id _ _ _ _ _ _ _ Hrw).
    exact (getBlock_id _ _ _ Hblk).
Qed.

End Layout.

Lemma buildDispatch_layout (insert : nat) (bbIndex : list Z) (e : BasicBlock)
    (rest f' : Function) (L : nat) :
  buildDispatch insert bbIndex (e :: rest) = Ok (f', L) ->
  bbId e = insert -> ~ In insert (ids rest) ->
  L = fresh (e :: rest) /\ ids f' = insert :: L :: ids rest.
Proof.
  intros H He Hrest. unfold buildDispatch in H.
  destruct (at_ bbIndex 0) as [first|]; cbn [bind] in H; [|discriminate].
  injection H as Hf HL. subst f' L. split; [reflexivity|].
  set (upd := fun b : BasicBlock =>
                mkBB (bbId b)
                  (bbInsts b ++ [AllocaInst switchVar;
                                 StoreInst (ConstI32 first) (Reg switchVar)])
                  (Br (fresh (e :: rest)))).
  assert (Hu : ids (updateBlock insert upd (e :: rest)) = insert :: ids rest).
  { rewrite ids_updateBlock by (intros b Hb; exact Hb). simpl. now rewrite He. }
  set (loopBlk := mkBB (fresh (e :: rest)) [LoadInst load (Reg switchVar)]
                    (Switch (Reg load) (fresh (e :: rest)) [])).
  assert (Hi : ids (insertBefore insert loopBlk (updateBlock insert upd (e :: rest)))
               = fresh (e :: rest) :: insert :: ids rest).
  { apply (ids_insertBefore insert loopBlk [] (ids rest) _ Hu). intros []. }
  assert (Hne : insert <> fresh (e :: rest)).
  { intros E. apply (fresh_not_In (e :: rest)). rewrite <- E. simpl. now left. }
  change (ids (moveBefore insert (fresh (e :: rest))
                (insertBefore insert loopBlk (updateBlock insert upd (e :: rest))))
          = insert :: fresh (e :: rest) :: ids rest).
  rewrite (ids_moveBefore insert (fresh (e :: rest)) [] (insert :: ids rest) _ Hi).
  - simpl. rewrite Nat.eqb_refl. simpl. now rewrite (filter_absent _ _ Hrest).
  - intros [].
  - exact Hne.
  - rewrite Hi. right. now left.
Qed.

(** When line 195 is passed the layout is: the entry, the dispatched blocks
    in the order of [bbSeq], the loop header. *)
Lemma rewire_layout (g : mt19937) (f r : Function) :
  NoDup (ids f) -> rejected f = false -> rewire g f = Ok r ->
  ids r = insertOf f :: map (blockAt (origBBOf f)) (bbSeqOf g f) ++ [loopEntryOf f].
Proof.
  intros Hnd Hrej Hr.
  pose proof (origBBOf_NoDup f Hnd Hrej) as Hnd2.
  destruct (rejected_false _ Hrej) as (insert & b0 & rest & ->).
  destruct (afterSplit_shape insert (b0 :: rest)) as (e & rest' & Hsplit & He & Hrest).
  pose proof (afterSplit_NoDup _ _ Hnd) as Hnd1.
  set (f := insert :: b0 :: rest) in *.
  rewrite Hsplit in Hnd1. simpl in Hnd1. rewrite He, Hrest in Hnd1.
  inversion Hnd1 as [|? ? Hent _]; subst.
  assert (HL : ~ In (loopEntryOf f) (bbId insert :: origBBOf f)).
  { rewrite <- Hrest, <- He. unfold loopEntryOf. rewrite Hsplit. apply fresh_not_In. }
  unfold f in Hr. rewrite rewire_unfold in Hr. fold f in Hr.
  destruct (buildDispatch (bbId insert) (bbIndexOf g f) (afterSplit f))
    as [[f2 L]|] eqn:Hbuild; simpl in Hr; [|discriminate].
  rewrite Hsplit in Hbuild.
  destruct (buildDispatch_layout _ _ _ _ _ _ Hbuild He) as [EL Hf2].
  { now rewrite Hrest. }
  rewrite <- Hsplit in EL. fold (loopEntryOf f) in EL. subst L. rewrite Hrest in Hf2.
  destruct (installCases (loopEntryOf f) (origBBOf f) (bbIndexOf g f) (bbSeqOf g f) f2)
    as [f3|] eqn:Hinst; simpl in Hr; [|discriminate].
  rewrite (recalcSwitchVar_ids _ _ _ _ _ _ _ Hr).
  rewrite (installCases_layout (loopEntryOf f) (bbId insert) (origBBOf f)
             (bbIndexOf g f) Hnd2
             (fun H => HL (or_intror H)) Hent
             (fun E => HL (or_introl E))
             (bbSeqOf g f) [] f2 f3 Hinst).
  - simpl. f_equal. f_equal. f_equal. apply filter_none. intros x Hx.
    apply not_true_iff_false. rewrite notAmong_In. intros H. apply H.
    destruct (In_nth _ _ 0 Hx) as (b & Hb & E).
    apply in_map_iff. exists b. split; [exact E | now apply bbSeqOf_In].
  - simpl. apply bbSeqOf_NoDup.
  - intros b [].
  - simpl. rewrite Hf2. f_equal. f_equal.
    symmetry. apply forallb_filter_id. apply forallb_forall. intros x _. reflexivity.
Qed.

(* ------------------------------------------------------------------------- *)
(** ** The dispatch table *)
(* ------------------------------------------------------------------------- *)

Section Dispatch.

Lemma map_fst_combine (l : list Z) (l' : list nat) :
  length l = length l' -> map fst (combine l l') = l.
Proof.
  revert l'. induction l as [|x l IH]; intros [|y l'] H; simpl in *;
    try discriminate; [reflexivity|].
  f_equal. apply IH. now inversion H.
Qed.

Lemma switchDest_NoDup (x : Z) (i : nat) (cases : list (Z * nat)) (d : nat) :
  NoDup (map fst cases) -> In (x, i) cases -> Sem.switchDest x cases d = i.
Proof.
  induction cases as [|[k dest] cases IH]; simpl; intros Hnd Hin; [contradiction|].
  inversion Hnd as [|? ? Hk Hnd']; subst.
  destruct Hin as [E|Hin].
  - inversion E; subst. now rewrite Z.eqb_refl.
  - destruct (Z.eqb_spec k x) as [E|E].
    + subst. exfalso. apply Hk. apply in_map_iff. now exists (x, i).
    + now apply IH.
Qed.

Lemma find_index_In (x : nat) (l : list nat) :
  In x l -> nth_error l (find_index x l) = Some x.
Proof.
  induction l as [|y l IH]; simpl; [tauto|].
  destruct (Nat.eqb_spec y x) as [E|E]; simpl.
  - now subst.
  - intros [H|H]; [contradiction | now apply IH].
Qed.

Variable g : mt19937.

Lemma labelOf_case (f : Function) (i : nat) :
  In i (origBBOf f) ->
  In (labelOf g f i, i) (combine (bbIndexOf g f) (origBBOf f)).
Proof.
  intros Hi. pose proof (find_index_In i _ Hi) as Hn.
  assert (Hlt : find_index i (origBBOf f) < length (origBBOf f)).
  { apply nth_error_Some. congruence. }
  unfold labelOf.
  rewrite <- (nth_error_nth _ _ 0 Hn) at 2.
  rewrite <- combine_nth by apply bbIndexOf_length.
  apply nth_In. rewrite length_combine, bbIndexOf_length. lia.
Qed.

(** With labels that differ, the cases installed send the label of each
    dispatched block to that block. *)
Lemma casesOf_dispatch (f : Function) (i : nat) (d : nat) :
  NoDup (bbIndexOf g f) -> In i (origBBOf f) ->
  Sem.switchDest (labelOf g f i)
    (casesOf (origBBOf f) (bbIndexOf g f) (bbSeqOf g f)) d = i.
Proof.
  intros Hnd Hi. apply switchDest_NoDup.
  - apply (Permutation_NoDup
             (l := map fst (combine (bbIndexOf g f) (origBBOf f)))).
    + apply Permutation_map, Permutation_sym, cases_are_labelled_blocks.
    + now rewrite map_fst_combine by apply bbIndexOf_length.
  - apply (Permutation_in _ (Permutation_sym (cases_are_labelled_blocks g f))).
    now apply labelOf_case.
Qed.

Lemma labelOf_at (f : Function) (b i : nat) (l : Z) :
  NoDup (origBBOf f) ->
  nth_error (origBBOf f) b = Some i ->
  nth_error (bbIndexOf g f) b = Some l ->
  labelOf g f i = l.
Proof.
  intros Hnd Hi Hl. unfold labelOf.
  rewrite (find_index_NoDup _ _ _ Hnd Hi). now apply nth_error_nth.
Qed.

Lemma labelOf_found (f : Function) (i : nat) (l : Z) :
  nth_error (bbIndexOf g f) (find_index i (origBBOf f)) = Some l ->
  labelOf g f i = l.
Proof. intros H. unfold labelOf. now apply nth_error_nth. Qed.

Lemma labelOf_u32 (f : Function) (i : nat) : is_u32 (labelOf g f i).
Proof.
  unfold labelOf.
  destruct (nth_error (bbIndexOf g f) (find_index i (origBBOf f))) as [l|] eqn:E.
  - rewrite (nth_error_nth _ _ _ E). eapply drawLabels_u32, E.
  - rewrite nth_overflow by now apply nth_error_None. unfold is_u32. lia.
Qed.

End Dispatch.

(* ------------------------------------------------------------------------- *)
(** ** Which procedures the pass gets through *)
(* ------------------------------------------------------------------------- *)

Section Completion.

Variables (loopEntry : nat) (origBB : list nat) (bbIndex : list Z) (bbSeq : list nat).

(** A block that [rewriteBlock] gets through has at most two successors and
    ends in a conditional branch when it has two. *)
Lemma rewriteBlock_Ok_branches (b : nat) (blk blk' : BasicBlock) :
  rewriteBlock loopEntry origBB bbIndex bbSeq b blk = Ok blk' ->
  atMostTwoSuccessors blk = true /\ twoWayIsBranch blk = true.
Proof.
  unfold rewriteBlock, atMostTwoSuccessors, twoWayIsBranch, getNumSuccessors.
  destruct (successors (bbTerm blk)) as [|s0 [|s1 [|s2 l]]] eqn:Hs; simpl;
    try (intros _; now split); try discriminate.
  destruct (bbTerm blk) eqn:Ht; simpl; try discriminate. intros _. now split.
Qed.

(** When the successors of a block are dispatched, [rewriteBlock] can stop
    on the assertion or on the cast only. *)
Lemma rewriteBlock_stops (b : nat) (blk : BasicBlock) :
  length bbIndex = length origBB ->
  length bbSeq = length origBB ->
  b < length origBB ->
  In b bbSeq ->
  successorsIn origBB blk = true ->
  match rewriteBlock loopEntry origBB bbIndex bbSeq b blk with
  | Ok _ => True
  | Fail e => e = AssertNumSuccessors \/ e = BadCast
  end.
Proof.
  intros Hlen Hlen' Hb Hin Hs.
  destruct (atMostTwoSuccessors blk) eqn:H2.
  - pose proof (rewriteBlock_faults loopEntry origBB bbIndex bbSeq b blk
                  Hlen Hlen' Hb Hin H2 Hs) as H.
    destruct (rewriteBlock _ _ _ _ b blk); [exact I|]. right. now destruct H.
  - unfold atMostTwoSuccessors in H2. apply Nat.leb_gt in H2.
    unfold rewriteBlock.
    destruct (Nat.eqb_spec (getNumSuccessors (bbTerm blk)) 0); [lia|].
    destruct (Nat.eqb_spec (getNumSuccessors (bbTerm blk)) 1); [lia|].
    destruct (Nat.eqb_spec (getNumSuccessors (bbTerm blk)) 2); [lia|].
    simpl. now left.
Qed.

End Completion.

Lemma rewire_Ok_branches (g : mt19937) (f r : Function) :
  NoDup (ids f) -> rejected f = false -> rewire g f = Ok r ->
  forallb (fun blk => atMostTwoSuccessors blk && twoWayIsBranch blk)
    (dispatchedBlocks f) = true.
Proof.
  intros Hnd Hrej Hr.
  destruct (rewire_spec g f r Hnd Hrej Hr) as (_ & _ & Hblocks & _).
  apply forallb_forall. intros blk Hin.
  apply In_nth_error in Hin. destruct Hin as [b Hb].
  destruct (nth_error (origBBOf f) b) as [i|] eqn:Hi.
  2:{ apply nth_error_None in Hi.
      rewrite <- dispatchedBlocks_length in Hi by assumption.
      apply nth_error_None in Hi. congruence. }
  destruct (dispatchedBlocks_get f b i Hnd Hrej Hi) as (blk0 & H0 & _ & Hget).
  assert (blk0 = blk) by congruence. subst blk0.
  destruct (Hblocks b i Hi) as (blk1 & blk' & H1 & Hrw & _).
  assert (blk1 = blk) by congruence. subst blk1.
  destruct (rewriteBlock_Ok_branches _ _ _ _ b blk blk' Hrw) as [E1 E2].
  now rewrite E1, E2.
Qed.

(** With the successors of the dispatched blocks dispatched, the pass can
    stop on the assertion or on the cast only. *)
Lemma rewire_stops (g : mt19937) (f : Function) :
  NoDup (ids f) -> rejected f = false ->
  forallb (successorsIn (origBBOf f)) (dispatchedBlocks f) = true ->
  match rewire g f with
  | Ok _ => True
  | Fail e => e = AssertNumSuccessors \/ e = BadCast
  end.
Proof.
  intros Hnd Hrej Hs. apply rewire_faults; [assumption..|].
  intros b blk Hb.
  assert (Hlt : b < length (origBBOf f)).
  { rewrite <- dispatchedBlocks_length by assumption. apply nth_error_Some. congruence. }
  apply rewriteBlock_stops.
  - apply bbIndexOf_length.
  - apply bbSeqOf_length.
  - exact Hlt.
  - now apply bbSeqOf_In.
  - rewrite forallb_forall in Hs. apply Hs. exact (nth_error_In _ _ Hb).
Qed.

(* ------------------------------------------------------------------------- *)
(** ** Round the dispatcher *)
(* ------------------------------------------------------------------------- *)

Section RoundTrip.

Import Sem.

Lemma setCell_read (a : nat) (x : Z) (m m' : list Z) :
  setCell a x m = Some m' -> nth_error m' a = Some x /\ length m' = length m.
Proof.
  revert a m'. induction m as [|y m IH]; intros a m' H; [now destruct a|].
  destruct a as [|a]; simpl in H.
  - inversion H. now split.
  - destruct (setCell a x m) as [m1|] eqn:E; [|discriminate].
    inversion H as [Hm]. destruct (IH a m1 E) as [Hr Hl]. simpl.
    split; [exact Hr | now rewrite Hl].
Qed.

Lemma setCell_end (x : Z) (m : list Z) :
  setCell (length m) x (m ++ [0%Z]) = Some (m ++ [x]).
Proof. induction m as [|y m IH]; simpl; [reflexivity | now rewrite IH]. Qed.

Lemma sext_bit (x : Z) : sext x = sext (if Z.testbit x 0 then 1 else 0).
Proof. unfold sext. now destruct (Z.testbit x 0). Qed.

(** The value of the formula, whatever the condition evaluates to. *)
Lemma nextState_value (x lb lf lt : Z) :
  is_u32 lb -> is_u32 lf -> is_u32 lt ->
  Z.lxor (Z.land (sext x) (wrap32 (Z.lxor lt lf))) (Z.lxor (wrap32 (Z.lxor lb lf)) lb)
  = if Z.testbit x 0 then lt else lf.
Proof.
  intros Hb Hf Ht. rewrite sext_bit. destruct (Z.testbit x 0).
  - now apply nextState_true.
  - now apply nextState_false.
Qed.

(** The code that updates the state variable changes no register but its
    four temporaries, and no cell but the state variable. *)
Lemma exec_updateStateCode_frame (i : nat) (c : value) (lb lf lt : Z) (s : state)
    (x loaded a : Z) :
  evalValue s c = Some x ->
  regs s load = Some loaded ->
  regs s switchVar = Some a ->
  Z.to_nat a < length (mem s) ->
  exists s',
    execInsts s (updateStateCode i c lb lf lt) = Some s' /\
    regs s' switchVar = Some a /\
    nth_error (mem s') (Z.to_nat a) =
      Some (Z.lxor (Z.land (sext x) (wrap32 (Z.lxor lt lf)))
                   (Z.lxor (wrap32 (Z.lxor lb lf)) loaded)).
Proof.
  intros Hc Hl Ha Hlt.
  destruct (exec_nextStateCode i c lb lf lt s x loaded Hc Hl)
    as (s1 & E1 & Hv & Hsv & Hm).
  destruct (setCell_lt (Z.to_nat a)
              (Z.lxor (Z.land (sext x) (wrap32 (Z.lxor lt lf)))
                      (Z.lxor (wrap32 (Z.lxor lb lf)) loaded)) (mem s) Hlt)
    as (m' & Em & Hn & _).
  unfold updateStateCode. rewrite execInsts_app, E1.
  cbn [execInsts execInstr evalValue]. rewrite Hv, Hsv, Ha, Hm, Em.
  eexists. split; [reflexivity|]. cbn [regs mem]. split; [now rewrite Hsv | exact Hn].
Qed.

Lemma execBlock_intro (f : Function) (s s' : state) (pc : nat) (b : BasicBlock)
    (o : nat + option Z) :
  getBlock f pc = Some b ->
  execInsts s (bbInsts b) = Some s' ->
  execTerm s' (bbTerm b) = Some o ->
  execBlock f s pc = Some (s', o).
Proof. intros H1 H2 H3. unfold execBlock. now rewrite H1, H2, H3. Qed.

(** [run] is [execBlock] again and again. *)
Lemma run_execBlock (fuel : nat) (f : Function) (s : state) (pc : nat) :
  run (S fuel) f s pc =
  match execBlock f s pc with
  | None => Stuck
  | Some (_, inr v) => Returned v
  | Some (s', inl next) => run fuel f s' next
  end.
Proof.
  unfold execBlock. simpl. destruct (getBlock f pc) as [b|]; [|reflexivity].
  destruct (execInsts s (bbInsts b)) as [s'|]; [|reflexivity].
  destruct (execTerm s' (bbTerm b)) as [[next|v]|]; reflexivity.
Qed.

(** The loop header, entered with the label of a dispatched block in the
    state variable, loads it and goes to that block. *)
Lemma header_dispatches (g : mt19937) (f r : Function) (i : nat) (s : state) (a : Z) :
  rejected f = false -> rewire g f = Ok r ->
  NoDup (bbIndexOf g f) -> In i (origBBOf f) ->
  regs s switchVar = Some a ->
  nth_error (mem s) (Z.to_nat a) = Some (labelOf g f i) ->
  execBlock r s (loopEntryOf f) = Some (setReg load (labelOf g f i) s, inl i).
Proof.
  intros Hrej Hr Hnd Hi Ha Hm.
  apply (execBlock_intro _ _ _ _ _ _ (rewire_loopEntry g f r Hrej Hr)).
  - cbn [bbInsts execInsts execInstr evalValue]. now rewrite Ha, Hm.
  - cbn [bbTerm execTerm evalValue]. rewrite regs_setReg, reg_eq_dec_refl.
    now rewrite casesOf_dispatch.
Qed.

End RoundTrip.

Section Edges.

Variable g : mt19937.

Lemma dispatchedBlocks_position (f : Function) (blk : BasicBlock) :
  NoDup (ids f) -> rejected f = false ->
  In blk (dispatchedBlocks f) ->
  exists b,
    nth_error (origBBOf f) b = Some (bbId blk) /\
    getBlock (afterSplit f) (bbId blk) = Some blk.
Proof.
  intros Hnd Hrej Hin. apply In_nth_error in Hin. destruct Hin as [b Hb].
  exists b. destruct (nth_error (origBBOf f) b) as [i|] eqn:Hi.
  - destruct (dispatchedBlocks_get f b i Hnd Hrej Hi) as (blk0 & H0 & Hid & Hget).
    assert (blk0 = blk) by congruence. subst blk0. subst i. now split.
  - apply nth_error_None in Hi.
    rewrite <- dispatchedBlocks_length in Hi by assumption.
    apply nth_error_None in Hi. congruence.
Qed.

(** What [rewriteBlock] emits for a block whose terminator, run in [s],
    goes to [next]: the condition [c] has a value there, and the label that
    its bit selects is the label of [next]. *)
Lemma rewriteBlock_edge (f : Function) (b : nat) (blk blk' : BasicBlock)
    (s : Sem.state) (next : nat) :
  rewriteBlock (loopEntryOf f) (origBBOf f) (bbIndexOf g f) (bbSeqOf g f) b blk
    = Ok blk' ->
  Sem.execTerm s (bbTerm blk) = Some (inl next) ->
  exists c x lb lf lt,
    blk' = mkBB (bbId blk) (bbInsts blk ++ updateStateCode (bbId blk) c lb lf lt)
             (Br (loopEntryOf f)) /\
    Sem.evalValue s c = Some x /\
    nth_error (bbIndexOf g f) b = Some lb /\
    is_u32 lb /\ is_u32 lf /\ is_u32 lt /\
    labelOf g f next = (if Z.testbit x 0 then lt else lf).
Proof.
  intros Hrw Hterm. destruct (bbTerm blk) as [v|target|c t e|v d cases| | |] eqn:Ht;
    simpl in Hterm; try discriminate.
  - destruct v as [v|]; [destruct (Sem.evalValue s v)|]; discriminate.
  - inversion Hterm; subst next.
    assert (H1 : getNumSuccessors (bbTerm blk) = 1) by now rewrite Ht.
    destruct (rewriteBlock_jump _ _ _ _ b blk blk' H1 Hrw)
      as (lb & lf & lt & Hb & Hf & Hlt & ->).
    rewrite Ht in Hf. change (getSuccessor (Br target) 0) with target in Hf.
    exists (ConstI1 false), 0%Z, lb, lf, lt. repeat split; try assumption; try reflexivity;
      try (eapply drawLabels_u32; eassumption).
    change (Z.testbit 0 0) with false. now apply labelOf_found.
  - destruct (Sem.evalValue s c) as [x|] eqn:Hc; [|discriminate].
    inversion Hterm; subst next.
    destruct (rewriteBlock_branch _ _ _ _ b blk blk' c t e Ht Hrw)
      as (lb & lf & lt & Hb & Hf & Hlt & ->).
    exists c, x, lb, lf, lt. repeat split; try assumption; try reflexivity;
      try (eapply drawLabels_u32; eassumption).
    rewrite Z.bit0_odd. destruct (Z.odd x); now apply labelOf_found.
  - destruct (Sem.evalValue s v) as [x|] eqn:Hv; [|discriminate].
    destruct cases as [|k cases].
    + inversion Hterm; subst next.
      assert (H1 : getNumSuccessors (bbTerm blk) = 1) by now rewrite Ht.
      destruct (rewriteBlock_jump _ _ _ _ b blk blk' H1 Hrw)
        as (lb & lf & lt & Hb & Hf & Hlt & ->).
      rewrite Ht in Hf. change (getSuccessor (Switch v d []) 0) with d in Hf.
      exists (ConstI1 false), 0%Z, lb, lf, lt. repeat split; try assumption; try reflexivity;
        try (eapply drawLabels_u32; eassumption).
      change (Z.testbit 0 0) with false. now apply labelOf_found.
    + exfalso. unfold rewriteBlock in Hrw. rewrite Ht in Hrw. simpl in Hrw.
      destruct cases; discriminate.
Qed.

End Edges.

(* ------------------------------------------------------------------------- *)
(** ** The dispatched blocks as the pass leaves them *)
(* ------------------------------------------------------------------------- *)

Section Rewritten.

Variable g : mt19937.

(** The loop header is not a dispatched block. *)
Lemma loopEntryOf_not_dispatched (f : Function) :
  rejected f = false -> ~ In (loopEntryOf f) (origBBOf f).
Proof.
  intros Hrej E. apply (fresh_not_In (afterSplit f)).
  destruct (rejected_false _ Hrej) as (insert & b0 & rest & ->).
  destruct (afterSplit_shape insert (b0 :: rest)) as (e & rest' & Hs & _ & Hids).
  fold (loopEntryOf (insert :: b0 :: rest)). rewrite Hs. simpl. right.
  now rewrite Hids.
Qed.

(** A block that [rewriteBlock] gets through has no successor, or one, or
    ends in a conditional branch. *)
Lemma rewriteBlock_Ok_forms (loopEntry : nat) (origBB : list nat) (bbIndex : list Z)
    (bbSeq : list nat) (b : nat) (blk blk' : BasicBlock) :
  rewriteBlock loopEntry origBB bbIndex bbSeq b blk = Ok blk' ->
  getNumSuccessors (bbTerm blk) = 0 \/ getNumSuccessors (bbTerm blk) = 1 \/
  exists c t e, bbTerm blk = CondBr c t e.
Proof.
  unfold rewriteBlock.
  destruct (Nat.eqb_spec (getNumSuccessors (bbTerm blk)) 0) as [E0|N0]; [now left|].
  destruct (Nat.eqb_spec (getNumSuccessors (bbTerm blk)) 1) as [E1|N1]; [now right; left|].
  destruct (Nat.eqb_spec (getNumSuccessors (bbTerm blk)) 2) as [E2|N2];
    [|simpl; discriminate].
  destruct (bbTerm blk); simpl; try discriminate. intros _. right. right. eauto.
Qed.

End Rewritten.

(** C5.  In the procedure that the pass hands to the repair step (the
    blocks of the input being distinct objects), every dispatched block is
    found under its identity [i], and
    - a block without successor is as it was;
    - a block with one successor has kept its instructions and got, after
      them: the sign extension of the constant false; the xor of the loaded
      state with (own label xor label of the successor); the and of the
      sign extension with (label of the block at position
      [find_index b bbSeq] xor label of the successor), [b] being the
      position of the block in [origBB]; the xor of the last two values;
      the store of this value into the state variable; and it ends in one
      unconditional jump to the loop header;
    - a block that ends in a conditional branch on [c] to [t] and
      otherwise [e] has got the same instructions with [c] sign-extended
      and the constants (own label xor label of [e]) and (label of [t] xor
      label of [e]), and ends in one unconditional jump to the loop header;
    - these are all the dispatched blocks there are;
    - and no successor of the block it has become is a dispatched block. *)
Theorem dispatched_blocks_jump_to_loop_header :
  forall (fixStack : Function -> Function) (g : mt19937) (f f' : Function),
    NoDup (ids f) ->
    flatten fixStack g f = Ok (true, f') ->
    exists r,
      rewire g f = Ok r /\ f' = fixStack r /\
      forall blk, In blk (dispatchedBlocks f) ->
        let i := bbId blk in
        let own := labelOf g f i in
        (getNumSuccessors (bbTerm blk) = 0 -> getBlock r i = Some blk) /\
        (getNumSuccessors (bbTerm blk) = 1 ->
         let lf := labelOf g f (getSuccessor (bbTerm blk) 0) in
         let lt := nth (find_index (find_index i (origBBOf f)) (bbSeqOf g f))
                       (bbIndexOf g f) 0%Z in
         getBlock r i =
           Some (mkBB i
                   (bbInsts blk ++
                    [SExtInst (cond i) (ConstI1 false);
                     BinaryOperator Xor (tempValFalse i)
                       (ConstI32 (Z.lxor own lf)) (Reg load);
                     BinaryOperator And (maskVal i) (Reg (cond i))
                       (ConstI32 (Z.lxor lt lf));
                     BinaryOperator Xor (finalVal i) (Reg (maskVal i))
                       (Reg (tempValFalse i));
                     StoreInst (Reg (finalVal i)) (Reg switchVar)])
                   (Br (loopEntryOf f)))) /\
        (forall c t e, bbTerm blk = CondBr c t e ->
         let lf := labelOf g f e in
         let lt := labelOf g f t in
         getBlock r i =
           Some (mkBB i
                   (bbInsts blk ++
                    [SExtInst (cond i) c;
                     BinaryOperator Xor (tempValFalse i)
                       (ConstI32 (Z.lxor own lf)) (Reg load);
                     BinaryOperator And (maskVal i) (Reg (cond i))
                       (ConstI32 (Z.lxor lt lf));
                     BinaryOperator Xor (finalVal i) (Reg (maskVal i))
                       (Reg (tempValFalse i));
                     StoreInst (Reg (finalVal i)) (Reg switchVar)])
                   (Br (loopEntryOf f)))) /\
        (getNumSuccessors (bbTerm blk) = 0 \/
         getNumSuccessors (bbTerm blk) = 1 \/
         exists c t e, bbTerm blk = CondBr c t e) /\
        (forall blk', getBlock r i = Some blk' ->
           forall s, In s (successors (bbTerm blk')) -> ~ In s (origBBOf f)).
Proof.
  intros fixStack g f f' Hnd Hf.
  destruct (flatten_true fixStack g f f' Hf) as (Hrej & r & Hr & ->).
  destruct (rewire_spec g f r Hnd Hrej Hr) as (_ & _ & Hblocks & _).
  pose proof (origBBOf_NoDup f Hnd Hrej) as Hnd'.
  pose proof (loopEntryOf_not_dispatched f Hrej) as HL.
  exists r. split; [exact Hr|]. split; [reflexivity|]. intros blk Hin i own.
  destruct (dispatchedBlocks_position f blk Hnd Hrej Hin) as (b & Hi & Hget).
  destruct (Hblocks b _ Hi) as (blk1 & blk' & H1 & Hrw & Hres).
  assert (blk1 = blk) by congruence. subst blk1.
  fold i in Hi, Hres.
  assert (Hb : find_index i (origBBOf f) = b) by now apply find_index_NoDup.
  split; [|split; [|split; [|split]]].
  - intros H. rewrite Hres. f_equal.
    rewrite (rewriteBlock_ret _ _ _ _ b blk H) in Hrw. now inversion Hrw.
  - intros H lf lt.
    destruct (rewriteBlock_jump _ _ _ _ b blk blk' H Hrw)
      as (lb & lf' & lt' & Hlb & Hlf & Hlt & ->).
    rewrite Hres. unfold own, lf, lt. rewrite Hb.
    rewrite (labelOf_at g f b i lb Hnd' Hi Hlb).
    rewrite (labelOf_found g f _ lf' Hlf).
    rewrite (nth_error_nth _ _ 0%Z Hlt).
    reflexivity.
  - intros c t e Ht lf lt.
    destruct (rewriteBlock_branch _ _ _ _ b blk blk' c t e Ht Hrw)
      as (lb & lf' & lt' & Hlb & Hlf & Hlt & ->).
    rewrite Hres. unfold own, lf, lt.
    rewrite (labelOf_at g f b i lb Hnd' Hi Hlb).
    rewrite (labelOf_found g f _ lf' Hlf).
    rewrite (labelOf_found g f _ lt' Hlt).
    reflexivity.
  - exact (rewriteBlock_Ok_forms _ _ _ _ b blk blk' Hrw).
  - intros blk2 H2 s Hs. rewrite Hres in H2. inversion H2; subst blk2.
    destruct (Nat.eq_dec (getNumSuccessors (bbTerm blk)) 0) as [H|H].
    + rewrite (rewriteBlock_ret _ _ _ _ b blk H) in Hrw. inversion Hrw; subst blk'.
      unfold getNumSuccessors in H. apply length_zero_iff_nil in H.
      rewrite H in Hs. contradiction.
    + destruct (rewriteBlock_shape _ _ _ _ b blk blk' H Hrw) as (c & lb & lf & lt & ->).
      simpl in Hs. destruct Hs as [<-|[]]. exact HL.
Qed.

Lemma dispatched_blocks_jump_to_loop_header_witness :
  exists r,
    rewire gen_reversing diamond = Ok r /\ diamond_flat = r /\
    forall blk, In blk (dispatchedBlocks diamond) ->
      let i := bbId blk in
      let own := labelOf gen_reversing diamond i in
      (getNumSuccessors (bbTerm blk) = 0 -> getBlock r i = Some blk) /\
      (getNumSuccessors (bbTerm blk) = 1 ->
       let lf := labelOf gen_reversing diamond (getSuccessor (bbTerm blk) 0) in
       let lt := nth (find_index (find_index i (origBBOf diamond))
                        (bbSeqOf gen_reversing diamond))
                     (bbIndexOf gen_reversing diamond) 0%Z in
       getBlock r i =
         Some (mkBB i
                 (bbInsts blk ++
                  [SExtInst (cond i) (ConstI1 false);
                   BinaryOperator Xor (tempValFalse i)
                     (ConstI32 (Z.lxor own lf)) (Reg load);
                   BinaryOperator And (maskVal i) (Reg (cond i))
                     (ConstI32 (Z.lxor lt lf));
                   BinaryOperator Xor (finalVal i) (Reg (maskVal i))
                     (Reg (tempValFalse i));
                   StoreInst (Reg (finalVal i)) (Reg switchVar)])
                 (Br (loopEntryOf diamond)))) /\
      (forall c t e, bbTerm blk = CondBr c t e ->
       let lf := labelOf gen_reversing diamond e in
       let lt := labelOf gen_reversing diamond t in
       getBlock r i =
         Some (mkBB i
                 (bbInsts blk ++
                  [SExtInst (cond i) c;
                   BinaryOperator Xor (tempValFalse i)
                     (ConstI32 (Z.lxor own lf)) (Reg load);
                   BinaryOperator And (maskVal i) (Reg (cond i))
                     (ConstI32 (Z.lxor lt lf));
                   BinaryOperator Xor (finalVal i) (Reg (maskVal i))
                     (Reg (tempValFalse i));
                   StoreInst (Reg (finalVal i)) (Reg switchVar)])
                 (Br (loopEntryOf diamond)))) /\
      (getNumSuccessors (bbTerm blk) = 0 \/
       getNumSuccessors (bbTerm blk) = 1 \/
       exists c t e, bbTerm blk = CondBr c t e) /\
      (forall blk', getBlock r i = Some blk' ->
         forall s, In s (successors (bbTerm blk')) -> ~ In s (origBBOf diamond)).
Proof.
  apply (dispatched_blocks_jump_to_loop_header (fun f => f) gen_reversing
           diamond diamond_flat).
  - exact NoDup_diamond.
  - reflexivity.
Defined.

(** On [diamond] with the labels 10 to 13: the block A (label 10, branching
    on the argument to B, label 11, and otherwise to C, label 12) and the
    block B (which jumps to D, label 13) as the pass leaves them. *)
Example diamond_flat_blocks :
  getBlock diamond_flat 1 =
    Some (mkBB 1
            [SExtInst (cond 1) (Reg (OrigReg 0));
             BinaryOperator Xor (tempValFalse 1) (ConstI32 (Z.lxor 10 12)) (Reg load);
             BinaryOperator And (maskVal 1) (Reg (cond 1)) (ConstI32 (Z.lxor 11 12));
             BinaryOperator Xor (finalVal 1) (Reg (maskVal 1)) (Reg (tempValFalse 1));
             StoreInst (Reg (finalVal 1)) (Reg switchVar)]
            (Br 5)) /\
  getBlock diamond_flat 2 =
    Some (mkBB 2
            [StoreInst (ConstI32 10) (Reg (OrigReg 1));
             SExtInst (cond 2) (ConstI1 false);
             BinaryOperator Xor (tempValFalse 2) (ConstI32 (Z.lxor 11 13)) (Reg load);
             BinaryOperator And (maskVal 2) (Reg (cond 2)) (ConstI32 (Z.lxor 12 13));
             BinaryOperator Xor (finalVal 2) (Reg (maskVal 2)) (Reg (tempValFalse 2));
             StoreInst (Reg (finalVal 2)) (Reg switchVar)]
            (Br 5)).
Proof. split; reflexivity. Qed.

(* ------------------------------------------------------------------------- *)
(** ** Labels that collide *)
(* ------------------------------------------------------------------------- *)

(** The engine of [MT] is the standard's: seeded with the default 5489 it
    starts with 3499211612 and 581869302, and its 10000th output is the
    4123659995 that the standard requires. *)
Lemma MT_reference_outputs :
  MT.draw 5489 0 = 3499211612%Z /\
  MT.draw 5489 1 = 581869302%Z /\
  MT.draw 5489 (Z.to_nat 9999) = 4123659995%Z.
Proof. vm_compute. repeat split. Qed.

(** Seeded with 875734096 it draws the same number second and third. *)
Lemma MT_seed_875734096 :
  MT.draw 875734096 0 = 4254694362%Z /\
  MT.draw 875734096 1 = 3906756765%Z /\
  MT.draw 875734096 2 = 3906756765%Z /\
  MT.draw 875734096 3 = 3066299271%Z.
Proof. vm_compute. repeat split. Qed.

Section Collisions.

Lemma count_occ_twice (l : list Z) (x : Z) (b1 b2 : nat) :
  b1 < b2 ->
  nth_error l b1 = Some x ->
  nth_error l b2 = Some x ->
  2 <= count_occ Z.eq_dec l x.
Proof.
  revert b1 b2. induction l as [|y l IH]; intros b1 b2 Hlt H1 H2.
  - destruct b1; discriminate.
  - destruct b2 as [|b2]; [lia|]. simpl in H2.
    destruct b1 as [|b1]; simpl in H1.
    + inversion H1; subst y. rewrite count_occ_cons_eq by reflexivity.
      apply nth_error_In in H2.
      apply (count_occ_In Z.eq_dec) in H2. lia.
    + assert (2 <= count_occ Z.eq_dec l x) by (apply (IH b1 b2); [lia|assumption..]).
      simpl. destruct (Z.eq_dec y x); lia.
Qed.

(** The destination of a value that is a case key does not depend on the
    default destination. *)
Lemma switchDest_key (x : Z) (i : nat) (cases : list (Z * nat)) (d d' : nat) :
  In (x, i) cases -> Sem.switchDest x cases d = Sem.switchDest x cases d'.
Proof.
  induction cases as [|[k j] cases IH]; intros Hin; [contradiction|].
  simpl. destruct (Z.eqb_spec k x) as [E|N]; [reflexivity|].
  destruct Hin as [E|Hin]; [inversion E; contradiction|]. now apply IH.
Qed.

Variable g : mt19937.

Lemma bbIndexOf_nth (f : Function) (b : nat) :
  b < length (origBBOf f) ->
  nth_error (bbIndexOf g f) b = Some (randomBBIndex g b).
Proof.
  intros Hb. unfold bbIndexOf, drawLabels.
  rewrite nth_error_map, nth_error_seq.
  destruct (Nat.ltb_spec b (length (origBBOf f))); [reflexivity|lia].
Qed.

Lemma blockAt_nth (f : Function) (b : nat) :
  b < length (origBBOf f) ->
  nth_error (origBBOf f) b = Some (blockAt (origBBOf f) b).
Proof. intros Hb. unfold blockAt. now apply nth_error_nth'. Qed.

Lemma labelOf_blockAt (f : Function) (b : nat) :
  NoDup (origBBOf f) -> b < length (origBBOf f) ->
  labelOf g f (blockAt (origBBOf f) b) = randomBBIndex g b.
Proof.
  intros Hnd Hb.
  apply (labelOf_at g f b); [assumption|now apply blockAt_nth|now apply bbIndexOf_nth].
Qed.

End Collisions.

(** C4, at a failing input.  Nothing keeps two draws of lines 110-113
    apart.  Whenever the pass returns true and the draws for two
    dispatched blocks (the positions [b1 < b2] of [origBB]) are equal, the
    two blocks are different blocks with one label, the switch of the loop
    header has a case under this label for each of them, so the label
    appears as a case key at least twice, and for one of the two blocks the
    switch sends its label elsewhere. *)
Theorem equal_draws_share_a_case_key :
  forall (fixStack : Function -> Function) (g : mt19937) (f f' : Function)
         (b1 b2 : nat),
    NoDup (ids f) ->
    flatten fixStack g f = Ok (true, f') ->
    b1 < b2 -> b2 < length (origBBOf f) ->
    randomBBIndex g b1 = randomBBIndex g b2 ->
    let i1 := blockAt (origBBOf f) b1 in
    let i2 := blockAt (origBBOf f) b2 in
    exists r cases,
      rewire g f = Ok r /\ f' = fixStack r /\
      getBlock r (loopEntryOf f) =
        Some (mkBB (loopEntryOf f) [LoadInst load (Reg switchVar)]
                (Switch (Reg load) (loopEntryOf f) cases)) /\
      In i1 (origBBOf f) /\ In i2 (origBBOf f) /\ i1 <> i2 /\
      labelOf g f i1 = randomBBIndex g b1 /\
      labelOf g f i2 = randomBBIndex g b1 /\
      In (randomBBIndex g b1, i1) cases /\
      In (randomBBIndex g b1, i2) cases /\
      2 <= count_occ Z.eq_dec (map fst cases) (randomBBIndex g b1) /\
      ~ NoDup (map fst cases) /\
      exists i, (i = i1 \/ i = i2) /\
        forall d, Sem.switchDest (labelOf g f i) cases d <> i.
Proof.
  intros fixStack g f f' b1 b2 Hnd Hf Hlt Hb2 Hdraw i1 i2.
  destruct (flatten_true fixStack g f f' Hf) as (Hrej & r & Hr & ->).
  pose proof (origBBOf_NoDup f Hnd Hrej) as Hnd'.
  assert (Hb1 : b1 < length (origBBOf f)) by lia.
  pose proof (blockAt_nth f b1 Hb1) as Hn1.
  pose proof (blockAt_nth f b2 Hb2) as Hn2.
  fold i1 in Hn1. fold i2 in Hn2.
  assert (Hi1 : In i1 (origBBOf f)) by exact (nth_error_In _ _ Hn1).
  assert (Hi2 : In i2 (origBBOf f)) by exact (nth_error_In _ _ Hn2).
  assert (Hne : i1 <> i2).
  { intros E. assert (b1 = b2); [|lia].
    apply (blockAt_inj (origBBOf f) Hnd' b1 b2 Hb1 Hb2 E). }
  assert (Hl1 : labelOf g f i1 = randomBBIndex g b1)
    by (apply labelOf_blockAt; assumption).
  assert (Hl2 : labelOf g f i2 = randomBBIndex g b1)
    by (rewrite Hdraw; apply labelOf_blockAt; assumption).
  set (cases := casesOf (origBBOf f) (bbIndexOf g f) (bbSeqOf g f)).
  assert (Hperm : Permutation cases (combine (bbIndexOf g f) (origBBOf f)))
    by apply cases_are_labelled_blocks.
  assert (Hc1 : In (randomBBIndex g b1, i1) cases).
  { apply (Permutation_in _ (Permutation_sym Hperm)).
    rewrite <- Hl1. now apply labelOf_case. }
  assert (Hc2 : In (randomBBIndex g b1, i2) cases).
  { apply (Permutation_in _ (Permutation_sym Hperm)).
    rewrite <- Hl2. now apply labelOf_case. }
  assert (Hcount : 2 <= count_occ Z.eq_dec (map fst cases) (randomBBIndex g b1)).
  { assert (Hkeys : Permutation (map fst cases) (bbIndexOf g f)).
    { rewrite <- (map_fst_combine (bbIndexOf g f) (origBBOf f))
        by apply bbIndexOf_length.
      now apply Permutation_map. }
    rewrite (proj1 (Permutation_count_occ Z.eq_dec _ _) Hkeys).
    apply (count_occ_twice _ _ b1 b2 Hlt).
    - now apply bbIndexOf_nth.
    - rewrite Hdraw. now apply bbIndexOf_nth. }
  exists r, cases.
  repeat (split; [first [assumption | reflexivity | now apply rewire_loopEntry]|]).
  split.
  - intros Hnodup.
    pose proof (proj1 (NoDup_count_occ Z.eq_dec (map fst cases)) Hnodup
                  (randomBBIndex g b1)). lia.
  - destruct (Nat.eq_dec (Sem.switchDest (randomBBIndex g b1) cases 0) i1) as [E|N].
    + exists i2. split; [now right|]. intros d. rewrite Hl2.
      rewrite (switchDest_key _ _ _ d 0 Hc1). congruence.
    + exists i1. split; [now left|]. intros d. rewrite Hl1.
      now rewrite (switchDest_key _ _ _ d 0 Hc1).
Qed.

Lemma equal_draws_share_a_case_key_witness :
  exists r cases,
    rewire (gen_seeded 875734096) diamond = Ok r /\ diamond_collided = r /\
    getBlock r (loopEntryOf diamond) =
      Some (mkBB (loopEntryOf diamond) [LoadInst load (Reg switchVar)]
              (Switch (Reg load) (loopEntryOf diamond) cases)) /\
    In 2 (origBBOf diamond) /\ In 3 (origBBOf diamond) /\ 2 <> 3 /\
    labelOf (gen_seeded 875734096) diamond 2 = 3906756765%Z /\
    labelOf (gen_seeded 875734096) diamond 3 = 3906756765%Z /\
    In (3906756765%Z, 2) cases /\
    In (3906756765%Z, 3) cases /\
    2 <= count_occ Z.eq_dec (map fst cases) 3906756765%Z /\
    ~ NoDup (map fst cases) /\
    exists i, (i = 2 \/ i = 3) /\
      forall d, Sem.switchDest (labelOf (gen_seeded 875734096) diamond i) cases d <> i.
Proof.
  assert (Hdraw : randomBBIndex (gen_seeded 875734096) 1 = 3906756765%Z)
    by (vm_compute; reflexivity).
  rewrite <- Hdraw.
  apply (equal_draws_share_a_case_key (fun f => f) (gen_seeded 875734096)
           diamond diamond_collided 1 2).
  - exact NoDup_diamond.
  - vm_compute. reflexivity.
  - lia.
  - vm_compute. lia.
  - vm_compute. reflexivity.
Defined.

(** The failing input as the program meets it: the procedure [diamond]
    and a generator seeded with 875734096, whatever [std::shuffle] makes
    of its later outputs.  The pass returns true; the blocks B and C have
    one label; and the procedure it hands to the repair step returns the
    same value for both values of the condition, where [diamond] returns
    20 and 10. *)
Lemma seed_875734096_flattens_diamond_wrongly :
  forall (fixStack : Function -> Function) (g : mt19937),
    (forall k, k < 4 -> next_u32 g k = MT.draw 875734096 k) ->
    exists r v,
      flatten fixStack g diamond = Ok (true, fixStack r) /\
      labelOf g diamond 2 = 3906756765%Z /\
      labelOf g diamond 3 = 3906756765%Z /\
      Sem.call 8 r [0%Z] = Sem.Returned (Some v) /\
      Sem.call 8 r [1%Z] = Sem.Returned (Some v) /\
      Sem.call 4 diamond [0%Z] = Sem.Returned (Some 20%Z) /\
      Sem.call 4 diamond [1%Z] = Sem.Returned (Some 10%Z).
Proof.
  intros fixStack g Hg.
  assert (Hidx : bbIndexOf g diamond =
                 [4254694362; 3906756765; 3906756765; 3066299271]%Z).
  { destruct MT_seed_875734096 as (E0 & E1 & E2 & E3).
    unfold bbIndexOf, drawLabels. change (origBBOf diamond) with [1; 2; 3; 4].
    cbn [length seq map]. unfold randomBBIndex.
    rewrite !Hg by lia. rewrite E0, E1, E2, E3. reflexivity. }
  assert (Hall : forall bbSeq, Permutation bbSeq [0; 1; 2; 3] ->
            match (d <- buildDispatch 0
                          [4254694362; 3906756765; 3906756765; 3066299271]%Z
                          (afterSplit diamond) ;;
                   f3 <- installCases (snd d) (origBBOf diamond)
                           [4254694362; 3906756765; 3906756765; 3066299271]%Z
                           bbSeq (fst d) ;;
                   recalcSwitchVar (snd d) (origBBOf diamond)
                     [4254694362; 3906756765; 3906756765; 3066299271]%Z
                     bbSeq bbSeq f3) with
            | Ok r => exists v, Sem.call 8 r [0%Z] = Sem.Returned (Some v) /\
                                Sem.call 8 r [1%Z] = Sem.Returned (Some v)
            | Fail _ => False
            end).
  { intros l Hl. pose proof (Permutation_length Hl) as Hlen.
    destruct l as [|a [|b [|c [|d [|]]]]]; try discriminate. clear Hlen.
    assert (Ha : In a [0; 1; 2; 3]) by (apply (Permutation_in _ Hl); simpl; auto).
    assert (Hb : In b [0; 1; 2; 3]) by (apply (Permutation_in _ Hl); simpl; auto).
    assert (Hc : In c [0; 1; 2; 3]) by (apply (Permutation_in _ Hl); simpl; auto).
    assert (Hd : In d [0; 1; 2; 3]) by (apply (Permutation_in _ Hl); simpl; auto).
    assert (Hnd : NoDup [a; b; c; d]).
    { apply (Permutation_NoDup (Permutation_sym Hl)).
      repeat constructor; simpl; lia. }
    assert (Hne : a <> b /\ a <> c /\ a <> d /\ b <> c /\ b <> d /\ c <> d).
    { inversion Hnd as [|? ? Ha' Hnd1]; subst.
      inversion Hnd1 as [|? ? Hb' Hnd2]; subst.
      inversion Hnd2 as [|? ? Hc' _]; subst.
      simpl in Ha', Hb', Hc'. repeat split; intros E; subst; tauto. }
    clear Hl Hnd. destruct Hne as (Hab & Hac & Had & Hbc & Hbd & Hcd).
    simpl in Ha, Hb, Hc, Hd.
    destruct Ha as [<-|[<-|[<-|[<-|[]]]]];
      destruct Hb as [<-|[<-|[<-|[<-|[]]]]]; try solve [exfalso; congruence];
      destruct Hc as [<-|[<-|[<-|[<-|[]]]]]; try solve [exfalso; congruence];
      destruct Hd as [<-|[<-|[<-|[<-|[]]]]]; try solve [exfalso; congruence];
      (vm_compute; eexists; split; reflexivity). }
  pose proof (rewire_unfold g (mkBB 0 [AllocaInst (OrigReg 1)] (Br 1)) (tl diamond))
    as Hu.
  cbv zeta in Hu.
  change (mkBB 0 [AllocaInst (OrigReg 1)] (Br 1) :: tl diamond) with diamond in Hu.
  rewrite Hidx in Hu. cbn [bbId] in Hu.
  specialize (Hall (bbSeqOf g diamond) (bbSeqOf_perm g diamond)).
  rewrite <- Hu in Hall.
  destruct (rewire g diamond) as [r|e] eqn:Hr; [|contradiction].
  destruct Hall as (v & H0 & H1).
  exists r, v. split; [|split; [|split; [|split; [|split; [|split]]]]].
  - rewrite flatten_unfold, Hr. reflexivity.
  - unfold labelOf. rewrite Hidx. reflexivity.
  - unfold labelOf. rewrite Hidx. reflexivity.
  - exact H0.
  - exact H1.
  - reflexivity.
  - reflexivity.
Qed.

(* ------------------------------------------------------------------------- *)
(** ** Further properties of the pass *)
(* ------------------------------------------------------------------------- *)

(** X1.  In the procedure handed to the repair step the entry is still the
    first block, the loop header is the last one, and the dispatched blocks
    lie between them in the order of the cases of the switch. *)
Theorem layout_follows_cases :
  forall (fixStack : Function -> Function) (g : mt19937) (f f' : Function),
    NoDup (ids f) ->
    flatten fixStack g f = Ok (true, f') ->
    exists r cases,
      f' = fixStack r /\
      getBlock r (loopEntryOf f) =
        Some (mkBB (loopEntryOf f) [LoadInst load (Reg switchVar)]
                (Switch (Reg load) (loopEntryOf f) cases)) /\
      ids r = insertOf f :: map snd cases ++ [loopEntryOf f].
Proof.
  intros fixStack g f f' Hnd Hf.
  destruct (flatten_true fixStack g f f' Hf) as (Hrej & r & Hr & ->).
  exists r, (casesOf (origBBOf f) (bbIndexOf g f) (bbSeqOf g f)).
  split; [reflexivity|]. split; [now apply rewire_loopEntry|].
  rewrite (rewire_layout g f r Hnd Hrej Hr). unfold casesOf. now rewrite map_map.
Qed.

Lemma layout_follows_cases_witness :
  exists r cases,
    diamond_flat = r /\
    getBlock r (loopEntryOf diamond) =
      Some (mkBB (loopEntryOf diamond) [LoadInst load (Reg switchVar)]
              (Switch (Reg load) (loopEntryOf diamond) cases)) /\
    ids r = insertOf diamond :: map snd cases ++ [loopEntryOf diamond].
Proof.
  apply (layout_follows_cases (fun f => f) gen_reversing diamond diamond_flat).
  - exact NoDup_diamond.
  - reflexivity.
Defined.

(** X2.  The switch of the loop header gets one case per dispatched block:
    up to their order, its cases are the dispatched blocks paired with the
    labels drawn for them. *)
Theorem one_case_per_dispatched_block :
  forall (fixStack : Function -> Function) (g : mt19937) (f f' : Function),
    flatten fixStack g f = Ok (true, f') ->
    exists r cases,
      f' = fixStack r /\
      getBlock r (loopEntryOf f) =
        Some (mkBB (loopEntryOf f) [LoadInst load (Reg switchVar)]
                (Switch (Reg load) (loopEntryOf f) cases)) /\
      Permutation cases (combine (bbIndexOf g f) (origBBOf f)) /\
      length cases = length (origBBOf f).
Proof.
  intros fixStack g f f' Hf.
  destruct (flatten_true fixStack g f f' Hf) as (Hrej & r & Hr & ->).
  exists r, (casesOf (origBBOf f) (bbIndexOf g f) (bbSeqOf g f)).
  split; [reflexivity|]. split; [now apply rewire_loopEntry|].
  split; [apply cases_are_labelled_blocks|].
  unfold casesOf. rewrite length_map. apply bbSeqOf_length.
Qed.

Lemma one_case_per_dispatched_block_witness :
  exists r cases,
    diamond_flat = r /\
    getBlock r (loopEntryOf diamond) =
      Some (mkBB (loopEntryOf diamond) [LoadInst load (Reg switchVar)]
              (Switch (Reg load) (loopEntryOf diamond) cases)) /\
    Permutation cases (combine (bbIndexOf gen_reversing diamond) (origBBOf diamond)) /\
    length cases = length (origBBOf diamond).
Proof.
  apply (one_case_per_dispatched_block (fun f => f) gen_reversing diamond diamond_flat).
  reflexivity.
Defined.

(** X3.  When the labels drawn are pairwise distinct (and the blocks of the
    input are distinct objects), the switch of the loop header sends the
    label of every dispatched block to that block. *)
Theorem distinct_labels_dispatch :
  forall (fixStack : Function -> Function) (g : mt19937) (f f' : Function),
    NoDup (ids f) ->
    NoDup (bbIndexOf g f) ->
    flatten fixStack g f = Ok (true, f') ->
    exists r cases,
      f' = fixStack r /\
      getBlock r (loopEntryOf f) =
        Some (mkBB (loopEntryOf f) [LoadInst load (Reg switchVar)]
                (Switch (Reg load) (loopEntryOf f) cases)) /\
      forall i, In i (origBBOf f) ->
        Sem.switchDest (labelOf g f i) cases (loopEntryOf f) = i.
Proof.
  intros fixStack g f f' Hnd Hlab Hf.
  destruct (flatten_true fixStack g f f' Hf) as (Hrej & r & Hr & ->).
  exists r, (casesOf (origBBOf f) (bbIndexOf g f) (bbSeqOf g f)).
  split; [reflexivity|]. split; [now apply rewire_loopEntry|].
  intros i Hi. now apply casesOf_dispatch.
Qed.

Lemma NoDup_labels_diamond : NoDup (bbIndexOf gen_reversing diamond).
Proof.
  change (NoDup [10; 11; 12; 13]%Z). repeat constructor; simpl; lia.
Defined.

Lemma distinct_labels_dispatch_witness :
  exists r cases,
    diamond_flat = r /\
    getBlock r (loopEntryOf diamond) =
      Some (mkBB (loopEntryOf diamond) [LoadInst load (Reg switchVar)]
              (Switch (Reg load) (loopEntryOf diamond) cases)) /\
    forall i, In i (origBBOf diamond) ->
      Sem.switchDest (labelOf gen_reversing diamond i) cases (loopEntryOf diamond) = i.
Proof.
  apply (distinct_labels_dispatch (fun f => f) gen_reversing diamond diamond_flat).
  - exact NoDup_diamond.
  - exact NoDup_labels_diamond.
  - reflexivity.
Defined.

(** X4.  The rewiring removes and reorders no instruction: every block of
    the procedure, as it is after the entry split, is found under its
    identity in the procedure handed to the repair step with its
    instructions first, followed by what the pass appends. *)
Theorem instructions_are_kept :
  forall (fixStack : Function -> Function) (g : mt19937) (f f' : Function),
    NoDup (ids f) ->
    flatten fixStack g f = Ok (true, f') ->
    exists r,
      f' = fixStack r /\
      forall blk, In blk (afterSplit f) ->
        exists blk' appended,
          getBlock r (bbId blk) = Some blk' /\
          bbInsts blk' = bbInsts blk ++ appended.
Proof.
  intros fixStack g f f' Hnd Hf.
  destruct (flatten_true fixStack g f f' Hf) as (Hrej & r & Hr & ->).
  destruct (rewire_spec g f r Hnd Hrej Hr) as ((e & rest & Hs & He) & _ & Hblocks & _).
  exists r. split; [reflexivity|]. intros blk Hin.
  assert (Hd : dispatchedBlocks f = rest) by (unfold dispatchedBlocks; now rewrite Hs).
  rewrite Hs in Hin. destruct Hin as [<-|Hin].
  - assert (Hid : bbId e = insertOf f).
    { destruct (rejected_false _ Hrej) as (insert & b0 & rest0 & ->).
      destruct (afterSplit_shape insert (b0 :: rest0)) as (e' & r' & Hs' & He' & _).
      rewrite Hs in Hs'. inversion Hs'. subst. exact He'. }
    rewrite Hid, He. eexists. eexists. split; reflexivity.
  - rewrite <- Hd in Hin.
    destruct (dispatchedBlocks_position f blk Hnd Hrej Hin) as (b & Hb & Hget).
    destruct (Hblocks b _ Hb) as (blk1 & blk' & H1 & Hrw & Hres).
    assert (blk1 = blk) by congruence. subst blk1.
    destruct (Nat.eq_dec (getNumSuccessors (bbTerm blk)) 0) as [H|H].
    + rewrite (rewriteBlock_ret _ _ _ _ b blk H) in Hrw. inversion Hrw; subst blk'.
      exists blk, []. split; [exact Hres | now rewrite app_nil_r].
    + destruct (rewriteBlock_shape _ _ _ _ b blk blk' H Hrw) as (c & lb & lf & lt & ->).
      eexists. eexists. split; [exact Hres | reflexivity].
Qed.

Lemma instructions_are_kept_witness :
  exists r,
    diamond_flat = r /\
    forall blk, In blk (afterSplit diamond) ->
      exists blk' appended,
        getBlock r (bbId blk) = Some blk' /\
        bbInsts blk' = bbInsts blk ++ appended.
Proof.
  apply (instructions_are_kept (fun f => f) gen_reversing diamond diamond_flat).
  - exact NoDup_diamond.
  - reflexivity.
Defined.

Lemma normalized_forms (f : Function) :
  forallb (successorsIn (origBBOf f)) (dispatchedBlocks f) = true ->
  normalized f =
  forallb (fun blk => atMostTwoSuccessors blk && twoWayIsBranch blk) (dispatchedBlocks f).
Proof.
  unfold normalized, inBounds. generalize (origBBOf f).
  induction (dispatchedBlocks f) as [|blk l IH]; intros origBB H; [reflexivity|].
  simpl in H |- *. apply andb_true_iff in H. destruct H as [Hs Hl].
  specialize (IH origBB Hl). rewrite Hs.
  destruct (atMostTwoSuccessors blk), (twoWayIsBranch blk); simpl;
    rewrite <- ?IH; try reflexivity;
    now repeat rewrite ?andb_false_r, ?andb_true_r.
Qed.

(** X5.  With assertions compiled in, on a procedure that passes the
    validation, whose blocks are distinct objects and whose dispatched
    blocks branch to dispatched blocks only (so that every read of
    [bbIndex] is in range), the entry point of the pass returns true
    exactly when every dispatched block ends in a terminator without
    successor, with one successor, or in a conditional branch; on every
    other such procedure it stops on the assertion of line 175 or on the
    cast of line 176. *)
Theorem returns_true_iff_branch_forms :
  forall (fixStack : Function -> Function) (g : mt19937) (F : Function),
    NoDup (ids F) ->
    rejected F = false ->
    forallb (successorsIn (origBBOf F)) (dispatchedBlocks F) = true ->
    let forms :=
      forallb (fun blk => atMostTwoSuccessors blk && twoWayIsBranch blk)
        (dispatchedBlocks F) in
    ((exists F', runOnFunction fixStack g F = Ok (true, F')) <-> forms = true) /\
    (forms = false ->
     runOnFunction fixStack g F = Fail AssertNumSuccessors \/
     runOnFunction fixStack g F = Fail BadCast).
Proof.
  intros fixStack g F Hnd Hrej Hs forms. unfold runOnFunction. cbv zeta.
  rewrite flatten_unfold, Hrej. split; [split|].
  - intros [F' H]. destruct (rewire g F) as [r|] eqn:Hr; [|discriminate].
    now apply (rewire_Ok_branches g F r).
  - intros Hn. unfold forms in Hn. rewrite <- (normalized_forms F Hs) in Hn.
    destruct (rewire_total g F Hnd Hrej Hn) as [r Hr].
    exists (fixStack r). now rewrite Hr.
  - intros Hn. pose proof (rewire_stops g F Hnd Hrej Hs) as Hstop.
    destruct (rewire g F) as [r|e] eqn:Hr.
    + unfold forms in Hn. rewrite (rewire_Ok_branches g F r Hnd Hrej Hr) in Hn.
      discriminate.
    + simpl. destruct Hstop as [->| ->]; [now left|now right].
Qed.

Lemma returns_true_iff_branch_forms_witness :
  let forms :=
    forallb (fun blk => atMostTwoSuccessors blk && twoWayIsBranch blk)
      (dispatchedBlocks diamond) in
  ((exists F', runOnFunction (fun f => f) gen_reversing diamond = Ok (true, F'))
   <-> forms = true) /\
  (forms = false ->
   runOnFunction (fun f => f) gen_reversing diamond = Fail AssertNumSuccessors \/
   runOnFunction (fun f => f) gen_reversing diamond = Fail BadCast).
Proof.
  apply (returns_true_iff_branch_forms (fun f => f) gen_reversing diamond).
  - exact NoDup_diamond.
  - reflexivity.
  - reflexivity.
Defined.

(** The second part at work: [three_way] stops on the assertion. *)
Example three_way_stops_on_assertion :
  forallb (successorsIn (origBBOf three_way)) (dispatchedBlocks three_way) = true /\
  runOnFunction (fun f => f) gen_reversing three_way = Fail AssertNumSuccessors.
Proof. split; reflexivity. Qed.

(** X6.  One trip round the dispatcher follows the edge of the input.  Let
    the labels drawn be pairwise distinct and the state variable hold the
    label of a dispatched block.  From the loop header control enters that
    block with the label loaded; and if the block's own instructions run,
    leave the loaded label, the pointer to the state variable and its cell
    in place, and the terminator the block had would go to [next], then
    the rewritten block comes back to the loop header with the label of
    [next] in the state variable. *)
Theorem dispatcher_follows_edge :
  forall (fixStack : Function -> Function) (g : mt19937) (f f' : Function)
         (blk : BasicBlock) (s s2 : Sem.state) (a : Z) (next : nat),
    NoDup (ids f) ->
    NoDup (bbIndexOf g f) ->
    flatten fixStack g f = Ok (true, f') ->
    In blk (dispatchedBlocks f) ->
    Sem.regs s switchVar = Some a ->
    nth_error (Sem.mem s) (Z.to_nat a) = Some (labelOf g f (bbId blk)) ->
    Sem.execInsts (Sem.setReg load (labelOf g f (bbId blk)) s) (bbInsts blk) = Some s2 ->
    Sem.regs s2 load = Some (labelOf g f (bbId blk)) ->
    Sem.regs s2 switchVar = Some a ->
    Z.to_nat a < length (Sem.mem s2) ->
    Sem.execTerm s2 (bbTerm blk) = Some (inl next) ->
    exists r s3,
      f' = fixStack r /\
      execBlock r s (loopEntryOf f) =
        Some (Sem.setReg load (labelOf g f (bbId blk)) s, inl (bbId blk)) /\
      execBlock r (Sem.setReg load (labelOf g f (bbId blk)) s) (bbId blk) =
        Some (s3, inl (loopEntryOf f)) /\
      Sem.regs s3 switchVar = Some a /\
      nth_error (Sem.mem s3) (Z.to_nat a) = Some (labelOf g f next).
Proof.
  intros fixStack g f f' blk s s2 a next Hnd Hlab Hf Hin Ha Hm Hexec Hload Hsv Hlt Hterm.
  destruct (flatten_true fixStack g f f' Hf) as (Hrej & r & Hr & ->).
  destruct (dispatchedBlocks_position f blk Hnd Hrej Hin) as (b & Hb & Hget).
  destruct (rewire_spec g f r Hnd Hrej Hr) as (_ & _ & Hblocks & _).
  destruct (Hblocks b _ Hb) as (blk1 & blk' & H1 & Hrw & Hres).
  assert (blk1 = blk) by congruence. subst blk1.
  destruct (rewriteBlock_edge g f b blk blk' s2 next Hrw Hterm)
    as (c & x & lb & lf & lt & -> & Hc & Hlb & Ub & Uf & Ut & Hnext).
  assert (Elb : labelOf g f (bbId blk) = lb).
  { exact (labelOf_at g f b _ lb (origBBOf_NoDup f Hnd Hrej) Hb Hlb). }
  rewrite Elb in *.
  destruct (exec_updateStateCode_frame (bbId blk) c lb lf lt s2 x lb a Hc Hload Hsv Hlt)
    as (s3 & Hcode & Hsv3 & Hcell).
  exists r, s3. split; [reflexivity|]. split; [|split; [|split]].
  - rewrite <- Elb. apply (header_dispatches g f r (bbId blk) s a Hrej Hr Hlab).
    + exact (nth_error_In _ _ Hb).
    + exact Ha.
    + now rewrite Elb.
  - apply (execBlock_intro _ _ _ _ _ _ Hres).
    + cbn [bbInsts]. now rewrite execInsts_app, Hexec.
    + reflexivity.
  - exact Hsv3.
  - rewrite Hcell, Hnext. f_equal. now apply nextState_value.
Qed.

Lemma dispatcher_follows_edge_witness :
  exists r s3,
    diamond_flat = r /\
    execBlock r (dispatching 10) (loopEntryOf diamond) =
      Some (Sem.setReg load (labelOf gen_reversing diamond 1) (dispatching 10), inl 1) /\
    execBlock r (Sem.setReg load (labelOf gen_reversing diamond 1) (dispatching 10)) 1 =
      Some (s3, inl (loopEntryOf diamond)) /\
    Sem.regs s3 switchVar = Some 0%Z /\
    nth_error (Sem.mem s3) (Z.to_nat 0) = Some (labelOf gen_reversing diamond 2).
Proof.
  apply (dispatcher_follows_edge (fun f => f) gen_reversing diamond diamond_flat
           (mkBB 1 [] (CondBr (Reg (OrigReg 0)) 2 3))
           (dispatching 10)
           (Sem.setReg load (labelOf gen_reversing diamond 1) (dispatching 10))
           0%Z 2).
  - exact NoDup_diamond.
  - exact NoDup_labels_diamond.
  - reflexivity.
  - left. reflexivity.
  - reflexivity.
  - reflexivity.
  - reflexivity.
  - reflexivity.
  - reflexivity.
  - simpl. lia.
  - reflexivity.
Defined.

(** X7.  The flattened procedure starts with the block that follows the
    entry in the layout, whatever the terminator of the entry was: when the
    labels drawn are pairwise distinct and the instructions of the entry (as
    it is after the split) run, the entry allocates the state variable,
    stores the label of the first dispatched block and goes to the loop
    header, which goes to that block. *)
Theorem flattened_starts_at_first_dispatched :
  forall (fixStack : Function -> Function) (g : mt19937) (f f' : Function)
         (e : BasicBlock) (rest : Function) (s0 s1 : Sem.state),
    NoDup (ids f) ->
    NoDup (bbIndexOf g f) ->
    flatten fixStack g f = Ok (true, f') ->
    afterSplit f = e :: rest ->
    Sem.execInsts s0 (bbInsts e) = Some s1 ->
    exists r s2,
      f' = fixStack r /\
      execBlock r s0 (insertOf f) = Some (s2, inl (loopEntryOf f)) /\
      Sem.mem s2 = Sem.mem s1 ++ [labelOf g f (hd 0 (origBBOf f))] /\
      execBlock r s2 (loopEntryOf f) =
        Some (Sem.setReg load (labelOf g f (hd 0 (origBBOf f))) s2,
              inl (hd 0 (origBBOf f))).
Proof.
  intros fixStack g f f' e rest s0 s1 Hnd Hlab Hf Hs Hexec.
  destruct (flatten_true fixStack g f f' Hf) as (Hrej & r & Hr & ->).
  destruct (rewire_spec g f r Hnd Hrej Hr) as ((e' & rest' & Hs' & He) & _).
  rewrite Hs in Hs'. inversion Hs'; subst e' rest'. clear Hs'.
  assert (Hhd : In (hd 0 (origBBOf f)) (origBBOf f) /\
                labelOf g f (hd 0 (origBBOf f)) = nth 0 (bbIndexOf g f) 0%Z).
  { destruct (rejected_false _ Hrej) as (insert & b0 & rest0 & ->).
    pose proof (origBBOf_length insert b0 rest0) as Hlen. unfold labelOf.
    destruct (origBBOf (insert :: b0 :: rest0)) as [|i l]; [simpl in Hlen; lia|].
    simpl. rewrite Nat.eqb_refl. split; [now left | reflexivity]. }
  destruct Hhd as [Hin Hl0]. rewrite <- Hl0 in He.
  set (l0 := labelOf g f (hd 0 (origBBOf f))) in *.
  set (s2 := Sem.mkState
               (Sem.regs (Sem.setReg switchVar (Z.of_nat (length (Sem.mem s1))) s1))
               (Sem.mem s1 ++ [l0])).
  assert (Hentry : execBlock r s0 (insertOf f) = Some (s2, inl (loopEntryOf f))).
  { apply (execBlock_intro _ _ _ _ _ _ He); [|reflexivity].
    cbn [bbInsts]. rewrite execInsts_app, Hexec.
    cbn [Sem.execInsts Sem.execInstr Sem.evalValue Sem.regs Sem.mem].
    rewrite regs_setReg, reg_eq_dec_refl, Nat2Z.id, setCell_end.
    rewrite (wrap32_u32 l0) by apply labelOf_u32. reflexivity. }
  exists r, s2. split; [reflexivity|]. split; [exact Hentry|]. split; [reflexivity|].
  apply (header_dispatches g f r _ s2 (Z.of_nat (length (Sem.mem s1))) Hrej Hr Hlab Hin).
  - unfold s2. cbn [Sem.regs]. now rewrite regs_setReg, reg_eq_dec_refl.
  - unfold s2. cbn [Sem.mem]. rewrite Nat2Z.id, nth_error_app2 by lia.
    now rewrite Nat.sub_diag.
Qed.

Lemma flattened_starts_at_first_dispatched_witness :
  exists r s2,
    diamond_flat = r /\
    execBlock r (Sem.initial [1%Z]) (insertOf diamond) =
      Some (s2, inl (loopEntryOf diamond)) /\
    Sem.mem s2 = [0%Z] ++ [labelOf gen_reversing diamond (hd 0 (origBBOf diamond))] /\
    execBlock r s2 (loopEntryOf diamond) =
      Some (Sem.setReg load (labelOf gen_reversing diamond (hd 0 (origBBOf diamond))) s2,
            inl (hd 0 (origBBOf diamond))).
Proof.
  apply (flattened_starts_at_first_dispatched (fun f => f) gen_reversing diamond
           diamond_flat (mkBB 0 [AllocaInst (OrigReg 1)] (Br 1)) (tl diamond)
           (Sem.initial [1%Z])
           (Sem.mkState
              (Sem.regs (Sem.setReg (OrigReg 1) 0%Z (Sem.initial [1%Z]))) [0%Z])).
  - exact NoDup_diamond.
  - exact NoDup_labels_diamond.
  - reflexivity.
  - reflexivity.
  - reflexivity.
Defined.

(** X8.  The pass removes no block and adds the loop header, and one more
    block when the terminator of the entry has more than one successor:
    the procedure handed to the repair step has one or two blocks more
    than the input. *)
Theorem pass_adds_one_or_two_blocks :
  forall (fixStack : Function -> Function) (g : mt19937)
         (insert : BasicBlock) (rest f' : Function),
    NoDup (ids (insert :: rest)) ->
    flatten fixStack g (insert :: rest) = Ok (true, f') ->
    exists r,
      f' = fixStack r /\
      length r = length (insert :: rest)
                 + (if 1 <? getNumSuccessors (bbTerm insert) then 2 else 1).
Proof.
  intros fixStack g insert rest f' Hnd Hf.
  destruct (flatten_true fixStack g _ f' Hf) as (Hrej & r & Hr & ->).
  exists r. split; [reflexivity|].
  assert (Hlen : length r = length (ids r)) by (unfold ids; now rewrite length_map).
  rewrite Hlen, (rewire_layout g _ r Hnd Hrej Hr). simpl.
  rewrite length_app, length_map, bbSeqOf_length. simpl.
  unfold origBBOf. change (tl (ids (insert :: rest))) with (ids rest).
  rewrite <- splitsEntry_successors.
  destruct (splitsEntry (bbTerm insert)) eqn:H.
  - rewrite (splitEntry_split _ _ H). simpl. unfold ids. rewrite length_map. lia.
  - rewrite (splitEntry_keep _ _ H). simpl. unfold ids. rewrite length_map. lia.
Qed.

Lemma pass_adds_one_or_two_blocks_witness :
  exists r,
    diamond_flat = r /\
    length r = length diamond + 1.
Proof.
  apply (pass_adds_one_or_two_blocks (fun f => f) gen_reversing
           (mkBB 0 [AllocaInst (OrigReg 1)] (Br 1)) (tl diamond) diamond_flat).
  - exact NoDup_diamond.
  - reflexivity.
Defined.
